(** * httpcache: the size-bounded LRU cache of lru.go

    A shallow embedding of [lru.go] (package [httpcache]) and the properties
    of its five operations: [Store], [Retrieve], [Header], [Invalidate] and
    [Freshen], together with the constructor [NewLRUCache].

    The cache is a Go struct behind a pointer; every operation takes the
    cache value and returns the updated one.  A Go panic is an outcome of its
    own ([Panics]), distinct from a returned [error].  Calls run one after
    the other: nothing else touches the cache between the steps of an
    operation.  The header map and the body bytes of an entry are shared
    with the resource they came from and between the keys of one [Store];
    nothing in [lru.go] writes to either, so they are plain values here.
    Printing and logging ([fmt.Println], [log.Printf], [debugf]) write to
    the process' output streams only and are left out. *)

From Stdlib Require Import ZArith NArith Lia Ascii.
From stdpp Require Import base option list strings gmap.

Local Open Scope Z_scope.

(** ** Values shared by the whole package *)

(** A [time.Time] instant, as a count of clock units. *)
Definition Time : Type := Z.

(** Go [error] values.  [ErrNotFoundInCache] is the package's sentinel,
    [EOF] is [io.EOF], [ErrorString] is an error built from a message
    ([fmt.Errorf], [errors.New], an I/O failure). *)
Inductive Err : Type :=
  | ErrNotFoundInCache
  | EOF
  | ErrorString (msg : string).

(** [error] is an interface value: [None] is Go's [nil]. *)
Definition error : Type := option Err.

(** A Go result pair [(T, error)] in which exactly one side is meaningful. *)
Inductive result (A : Type) : Type :=
  | Ok (a : A)
  | Error (e : Err).
Arguments Ok {A} a.
Arguments Error {A} e.

(** What a call does: it returns, or the goroutine panics. *)
Inductive Outcome (A : Type) : Type :=
  | Returns (a : A)
  | Panics (msg : string).
Arguments Returns {A} a.
Arguments Panics {A} msg.

(** ** [strconv.ParseInt(s, 10, 64)] *)
Module strconv.

Definition digit (a : ascii) : option Z :=
  let n := Z.of_nat (nat_of_ascii a) in
  if (48 <=? n) && (n <=? 57) then Some (n - 48) else None.

Fixpoint digits (acc : Z) (s : string) : option Z :=
  match s with
  | EmptyString => Some acc
  | String a r =>
      match digit a with
      | Some d => digits (10 * acc + d) r
      | None => None
      end
  end.

(** Base 10, 64 bits: an optional sign, at least one decimal digit, and a
    value in the range of [int64].  Every failure ([ErrSyntax],
    [ErrRange]) is [None]: the caller only tests [err == nil]. *)
Definition ParseInt (s : string) : option Z :=
  match s with
  | EmptyString => None
  | String a r =>
      let neg := Ascii.eqb a "-" in
      let s1 := if neg || Ascii.eqb a "+" then r else s in
      match s1 with
      | EmptyString => None
      | _ =>
          match digits 0 s1 with
          | Some un =>
              let v := if neg then - un else un in
              if (- 2 ^ 63 <=? v) && (v <? 2 ^ 63) then Some v else None
          | None => None
          end
      end
  end.

End strconv.

(** ** [net/http]: the header multi-map *)
Module http.

(** [http.Header] is [map[string][]string]; it is only read here, so a nil
    header and an empty one are the same map. *)
Abbreviation Header := (gmap string (list string)).

(** [Header.Get]: the first value under the key, or the empty string.  The
    only key asked for, ["Content-Length"], is already canonical. *)
Definition Get (h : Header) (key : string) : string :=
  match h !! key with
  | Some (v :: _) => v
  | _ => ""%string
  end.

End http.

(** ** [io]: readers *)
Module io.

(** An [io.Reader] is modelled by the finite script of what its successive
    [Read] calls can deliver: each step holds the bytes available before
    the call returns and the error reported once they are handed over.  An
    exhausted script is a reader at end of file. *)
Record ReadStep : Type := { avail : list Byte.byte; rerr : error }.

Definition Reader : Type := list ReadStep.

(** [Read(p)] with [len(p) = n]: at most [n] bytes, the error of the step
    when the step is used up, and the reader left behind. *)
Definition Read (r : Reader) (n : nat) : (list Byte.byte * error) * Reader :=
  match r with
  | [] => (([], Some EOF), [])
  | s :: rest =>
      if (n <? length (avail s))%nat
      then ((take n (avail s), None),
            {| avail := drop n (avail s); rerr := rerr s |} :: rest)
      else ((avail s, rerr s), rest)
  end.

(** [ioutil.ReadAll]: reads until an error; [io.EOF] is not reported. *)
Fixpoint ReadAll (r : Reader) : list Byte.byte * error :=
  match r with
  | [] => ([], None)
  | s :: rest =>
      match rerr s with
      | None => let '(bs, e) := ReadAll rest in (avail s ++ bs, e)
      | Some EOF => (avail s, None)
      | Some e => (avail s, Some e)
      end
  end.

(** [bytes.NewReader(b)]. *)
Definition NewReader (b : list Byte.byte) : Reader :=
  match b with
  | [] => []
  | _ => [{| avail := b; rerr := None |}]
  end.

End io.

(** ** The Eviction Store *)
Module lru.

Section WithValue.
Context {V : Type}.

(** Modelled from the spec: the Eviction Store, the byte-size variant of
    [github.com/hashicorp/golang-lru] that [lru.go] imports, an external
    package.  It is a key→value structure
    that tracks a caller-supplied weight per entry and evicts the
    least-recently-used entries when the configured capacity is
    exceeded.  The entries are kept most recently used first. *)
Record entry : Type := { key : string; value : V; size : N }.

Record Cache : Type := { capacity : N; items : list entry }.

Definition total (l : list entry) : N :=
  foldr (λ e acc, (size e + acc)%N) 0%N l.

Definition removeOldest (l : list entry) : list entry :=
  take (length l - 1) l.

(** Entries leave from the least recently used end for as long as the
    total weight exceeds the capacity. *)
Fixpoint evict_loop (fuel : nat) (cap : N) (l : list entry) : list entry :=
  match fuel with
  | O => l
  | S fuel' =>
      if (total l <=? cap)%N then l
      else evict_loop fuel' cap (removeOldest l)
  end.

Definition evict (cap : N) (l : list entry) : list entry :=
  evict_loop (length l) cap l.

(** The longest prefix (most recently used entries) whose total weight
    fits a budget: what [evict] leaves, see [lru_facts.evict_fitting]. *)
Fixpoint fitting (budget : N) (l : list entry) : list entry :=
  match l with
  | [] => []
  | e :: r =>
      if (size e <=? budget)%N then e :: fitting (budget - size e) r
      else []
  end.

Fixpoint find (k : string) (l : list entry) : option entry :=
  match l with
  | [] => None
  | e :: r => if decide (key e = k) then Some e else find k r
  end.

Definition without (k : string) (l : list entry) : list entry :=
  filter (λ e, key e ≠ k) l.

(** Modelled from the spec: construction fails on an invalid capacity,
    taken to be zero here (no theorem depends on which capacities are
    invalid); the eviction callback passed by [NewLRUCache] is nil. *)
Definition NewLargeWithEvict (sizeBytes : N) : result Cache :=
  if (sizeBytes =? 0)%N
  then Error (ErrorString "invalid capacity")
  else Ok {| capacity := sizeBytes; items := [] |}.

(** Modelled from the spec: [Get] returns the value under the key and
    makes the entry the most recently used one. *)
Definition Get (c : Cache) (k : string) : option V * Cache :=
  match find k (items c) with
  | Some e =>
      (Some (value e),
       {| capacity := capacity c; items := e :: without k (items c) |})
  | None => (None, c)
  end.

(** Modelled from the spec: insert-with-weight.  The entry replaces any
    entry under the same key, becomes the most recently used one, and
    eviction follows. *)
Definition AddSize (c : Cache) (k : string) (v : V) (sz : N) : Cache :=
  {| capacity := capacity c;
     items := evict (capacity c)
                ({| key := k; value := v; size := sz |}
                   :: without k (items c)) |}.

End WithValue.

Arguments entry V : clear implicits.
Arguments Cache V : clear implicits.

End lru.

(** ** Resources *)
Module Resource.

(** Modelled from the spec: the resource abstraction of the package,
    declared in another of its files: body stream, headers, status and
    stale flag.  The date accessor is a collaborator, see
    [Collaborators]. *)
Record t : Type :=
  { header : http.Header;
    statusCode : Z;
    body : io.Reader;
    stale : bool }.

Definition Header (r : t) : http.Header := header r.

Definition Status (r : t) : Z := statusCode r.

(** The resource is read through its body stream. *)
Definition Read (r : t) (n : nat) : (list Byte.byte * error) * t :=
  let '(out, rd) := io.Read (body r) n in
  (out, {| header := header r; statusCode := statusCode r;
           body := rd; stale := stale r |}).

Definition MarkStale (r : t) : t :=
  {| header := header r; statusCode := statusCode r;
     body := body r; stale := true |}.

End Resource.

(** Modelled from the spec: a resource rebuilt from stored bytes can be read
    as a byte stream and carries the given status and headers; it starts
    out not stale. *)
Definition NewResourceBytes (statusCode : Z) (b : list Byte.byte)
    (hdrs : http.Header) : Resource.t :=
  {| Resource.header := hdrs;
     Resource.statusCode := statusCode;
     Resource.body := io.NewReader b;
     Resource.stale := false |}.

(** Modelled from the spec: the package's [Header] struct, the headers and
    status code that the cache's [Header] method returns. *)
Record HeaderOf : Type :=
  { Header_Header : http.Header; StatusCode : Z }.

(** The package-level functions that [lru.go] calls and that are defined
    in other files of the package.  Every theorem below holds for all of
    them.
    - [Clock n] is the instant returned by the [n]-th call of [Clock()];
    - [headersEqual] compares two header sets;
    - [DateAfter r d] tells whether the effective date of [r] is strictly
      after [d]. *)
Class Collaborators : Type :=
  { Clock : nat → Time;
    headersEqual : http.Header → http.Header → bool;
    DateAfter : Resource.t → Time → bool }.

(** ** The cache entry *)

Record CacheObj : Type :=
  { body : list Byte.byte;
    headers : http.Header;
    code : Z }.

Definition Size (c : CacheObj) : N := N.of_nat (length (body c)).

(** The store holds [interface{}] values; only [CacheObj] values are ever
    put there by this package, the other case is what the defensive type
    assertions of [Header], [Retrieve] and [updateHeader] guard against. *)
Inductive any : Type :=
  | AnyCacheObj (o : CacheObj)
  | AnyOther (dynType : string).

(** [lruCache] fulfils the package's cache interface.  The [stale] field is
    a Go map: [None] is the nil map (reads find nothing, [delete] does
    nothing, an assignment panics), [Some m] an allocated one. *)
Record lruCache : Type :=
  { cache : lru.Cache any;
    stale : option (gmap string Time) }.

(** [c.stale[key]] read with the comma-ok form. *)
Definition staleTime (c : lruCache) (key : string) : option Time :=
  match stale c with
  | Some m => m !! key
  | None => None
  end.

(** [NewLRUCache] leaves the [stale] field at its zero value. *)
Definition NewLRUCache (sizeBytes : N) : result lruCache :=
  match lru.NewLargeWithEvict sizeBytes with
  | Error err => Error err
  | Ok c => Ok {| cache := c; stale := None |}
  end.

Definition Header (c : lruCache) (key : string) : result HeaderOf * lruCache :=
  let '(ival, l) := lru.Get (cache c) key in
  let c' := {| cache := l; stale := stale c |} in
  match ival with
  | None => (Error ErrNotFoundInCache, c')
  | Some (AnyOther ty) =>
      (Error (ErrorString ("cache held unknown value type '" +:+ ty
                             +:+ "' in key '" +:+ key +:+ "'")), c')
  | Some (AnyCacheObj val) =>
      (Ok {| Header_Header := headers val; StatusCode := code val |}, c')
  end.

(** The loop of [Store]: one [delete] and one [AddSize] per key. *)
Definition storeKey (val : CacheObj) (c : lruCache) (key : string) : lruCache :=
  {| cache := lru.AddSize (cache c) key (AnyCacheObj val) (Size val);
     stale := delete key <$> stale c |}.

(** The largest length [make([]byte, n)] accepts, the runtime's [maxAlloc]:
    2^48 on 64-bit Linux (amd64).  [make] panics below zero and above this
    limit; a buffer within the limit is taken to be allocated, the memory of
    the machine is not modelled. *)
Definition maxAlloc : Z := 2 ^ 48.

(** [Store].  With a parseable Content-Length the body is read by one [Read]
    into a buffer of that length, which [make] must accept; otherwise it is
    read to the end.  Both early [return err] statements of the first branch
    are kept as written: the second one returns the [err] that was just
    tested to be nil.  The position reached in the caller's resource is not
    kept: nothing reads that resource again. *)
Definition Store (c : lruCache) (res : Resource.t) (keys : list string)
    : Outcome (error * lruCache) :=
  let store bytes :=
    let val := {| body := bytes;
                  headers := Resource.Header res;
                  code := Resource.statusCode res |} in
    Returns (None, foldl (storeKey val) c keys) in
  match strconv.ParseInt (http.Get (Resource.Header res) "Content-Length") with
  | Some len =>
      if (len <? 0) || (maxAlloc <? len)
      then Panics "runtime error: makeslice: len out of range"
      else
        let '((bytes, err), _) := Resource.Read res (Z.to_nat len) in
        match err with
        | Some e => Returns (Some e, c)
        | None =>
            if negb (Z.of_nat (length bytes) =? len) then Returns (err, c)
            else store bytes
        end
  | None =>
      let '(bytes, err) := io.ReadAll (Resource.body res) in
      match err with
      | Some e => Returns (Some e, c)
      | None => store bytes
      end
  end.

Section Operations.
Context `{Collaborators}.

Definition Retrieve (c : lruCache) (key : string)
    : result Resource.t * lruCache :=
  let '(ival, l) := lru.Get (cache c) key in
  let c' := {| cache := l; stale := stale c |} in
  match ival with
  | None => (Error ErrNotFoundInCache, c')
  | Some (AnyOther ty) =>
      (Error (ErrorString ("cache had unknown value type '" +:+ ty
                             +:+ "' in key '" +:+ key +:+ "'")), c')
  | Some (AnyCacheObj val) =>
      let res := NewResourceBytes (code val) (body val) (headers val) in
      let res :=
        match staleTime c key with
        | Some t => if negb (DateAfter res t) then Resource.MarkStale res
                    else res
        | None => res
        end in
      (Ok res, c')
  end.

(** [updateHeader] re-inserts the value with new headers and status; the
    body and therefore the weight are those of the value found. *)
Definition updateHeader (c : lruCache) (key : string)
    (hdrs : http.Header) (code' : Z) : error * lruCache :=
  let '(ival, l) := lru.Get (cache c) key in
  match ival with
  | None => (Some ErrNotFoundInCache, {| cache := l; stale := stale c |})
  | Some (AnyOther ty) =>
      (Some (ErrorString ("cache had unknown value of type '" +:+ ty
                            +:+ "' in key '" +:+ key +:+ "'")),
       {| cache := l; stale := stale c |})
  | Some (AnyCacheObj val) =>
      let val := {| body := body val; headers := hdrs; code := code' |} in
      (None, {| cache := lru.AddSize l key (AnyCacheObj val) (Size val);
                stale := stale c |})
  end.

(** [Invalidate].  [tick] counts the calls of [Clock()] made so far.  The
    assignment into a nil map panics. *)
Fixpoint Invalidate (c : lruCache) (tick : nat) (keys : list string)
    : Outcome (lruCache * nat) :=
  match keys with
  | [] => Returns (c, tick)
  | key :: keys' =>
      match stale c with
      | None => Panics "assignment to entry in nil map"
      | Some m =>
          Invalidate {| cache := cache c;
                        stale := Some (<[key := Clock tick]> m) |}
                     (S tick) keys'
      end
  end.

Fixpoint Freshen (c : lruCache) (tick : nat) (res : Resource.t)
    (keys : list string) : Outcome (error * (lruCache * nat)) :=
  match keys with
  | [] => Returns (None, (c, tick))
  | key :: keys' =>
      match Header c key with
      | (Ok h, c1) =>
          if (StatusCode h =? Resource.Status res)
             && headersEqual (Header_Header h) (Resource.Header res)
          then
            match updateHeader c1 key (Resource.Header res) (StatusCode h) with
            | (Some err, c2) => Returns (Some err, (c2, tick))
            | (None, c2) => Freshen c2 tick res keys'
            end
          else
            match Invalidate c1 tick [key] with
            | Panics msg => Panics msg
            | Returns (c2, tick') => Freshen c2 tick' res keys'
            end
      | (Error _, c1) => Freshen c1 tick res keys'
      end
  end.

End Operations.

(** ** Reading the body, as [Store] does it *)

(** [readsInFull res bytes]: the body read of [Store] completes with
    [bytes], either the declared number of bytes from one [Read] or the
    whole stream. *)
Definition readsInFull (res : Resource.t) (bytes : list Byte.byte) : Prop :=
  match strconv.ParseInt (http.Get (Resource.Header res) "Content-Length") with
  | Some len =>
      0 <= len <= maxAlloc
      ∧ (Resource.Read res (Z.to_nat len)).1 = (bytes, None)
      ∧ Z.of_nat (length bytes) = len
  | None => io.ReadAll (Resource.body res) = (bytes, None)
  end.

(** [readsShort res len bytes]: the resource declares [len] bytes, a length
    [make] accepts, and the
    single [Read] yields fewer, without an error. *)
Definition readsShort (res : Resource.t) (len : Z) (bytes : list Byte.byte)
    : Prop :=
  strconv.ParseInt (http.Get (Resource.Header res) "Content-Length") = Some len
  ∧ len <= maxAlloc
  ∧ (Resource.Read res (Z.to_nat len)).1 = (bytes, None)
  ∧ Z.of_nat (length bytes) < len.

(** The entry [Store] builds from a resource and the bytes read. *)
Definition entryOf (res : Resource.t) (bytes : list Byte.byte) : CacheObj :=
  {| body := bytes;
     headers := Resource.Header res;
     code := Resource.statusCode res |}.

(** [inFront val P n l]: the first entries of [l], at most [n] of them, all
    hold [val] with its weight, and every key satisfying [P] is among
    them.  This is the loop invariant of [Store]. *)
Definition inFront (val : CacheObj) (P : string → Prop) (n : nat)
    (l : list (lru.entry any)) : Prop :=
  ∃ front rest,
    l = front ++ rest
    ∧ Forall (λ e, lru.value e = AnyCacheObj val ∧ lru.size e = Size val) front
    ∧ (∀ k, P k → ∃ e, e ∈ front ∧ lru.key e = k)
    ∧ (length front ≤ n)%nat.

(** The cache after a lookup of [key]: [Get] has moved the entry, if any, to
    the most recently used position; the overlay is as before. *)
Definition touched (c : lruCache) (key : string) : lruCache :=
  {| cache := (lru.Get (cache c) key).2; stale := stale c |}.

(** The value under [key], when it is a [CacheObj]. *)
Definition cached (c : lruCache) (key : string) : option CacheObj :=
  match lru.find key (lru.items (cache c)) with
  | Some e =>
      match lru.value e with
      | AnyCacheObj val => Some val
      | AnyOther _ => None
      end
  | None => None
  end.

(** The entry [updateHeader] puts back for a value found. *)
Definition refreshed (val : CacheObj) (hdrs : http.Header) (code' : Z)
    : CacheObj :=
  {| body := body val; headers := hdrs; code := code' |}.

(** ** Concrete collaborators and inputs for the examples *)

(** Dates written as decimal instants in the [Date] header; a resource
    without a readable date is never after anything. *)
Definition exampleDateAfter (r : Resource.t) (d : Time) : bool :=
  match strconv.ParseInt (http.Get (Resource.Header r) "Date") with
  | Some t => d <? t
  | None => false
  end.

(** Modelled from the spec: header sets are compared by semantic equality of
    header name→values, not by entry order. *)
Definition exampleHeadersEqual (h1 h2 : http.Header) : bool :=
  bool_decide (h1 = h2).

#[export] Instance exampleCollaborators : Collaborators :=
  {| Clock := λ n, 100 + Z.of_nat n;
     headersEqual := exampleHeadersEqual;
     DateAfter := exampleDateAfter |}.

Definition bytesOf (s : string) : list Byte.byte :=
  String.list_byte_of_string s.

Definition etag (v : string) : http.Header := {[ "ETag"%string := [v] ]}.

(** Status 200, header [{"ETag": ["a"]}], body ["hello"], no declared
    length. *)
Definition helloResource : Resource.t :=
  {| Resource.header := etag "a";
     Resource.statusCode := 200;
     Resource.body := io.NewReader (bytesOf "hello");
     Resource.stale := false |}.

(** Declares five bytes, delivers three. *)
Definition shortResource : Resource.t :=
  {| Resource.header := <[ "Content-Length"%string := ["5"%string] ]> (etag "a");
     Resource.statusCode := 200;
     Resource.body := io.NewReader (bytesOf "abc");
     Resource.stale := false |}.

(** A body stream that breaks after three bytes. *)
Definition brokenResource : Resource.t :=
  {| Resource.header := etag "a";
     Resource.statusCode := 200;
     Resource.body :=
       [{| io.avail := bytesOf "abc";
           io.rerr := Some (ErrorString "connection reset") |}];
     Resource.stale := false |}.

(** A candidate for revalidation: status and headers only. *)
Definition candidate (status : Z) (h : http.Header) : Resource.t :=
  {| Resource.header := h;
     Resource.statusCode := status;
     Resource.body := [];
     Resource.stale := false |}.

(** The cache [NewLRUCache(64)] returns. *)
Definition freshCache : lruCache :=
  {| cache := {| lru.capacity := 64; lru.items := [] |}; stale := None |}.

(** The same cache with an allocated, empty [stale] map. *)
Definition allocatedCache : lruCache :=
  {| cache := {| lru.capacity := 64; lru.items := [] |}; stale := Some ∅ |}.

(** The cache state an operation returns with, when it returns. *)
Definition after {A : Type} (o : Outcome (A * lruCache)) (dflt : lruCache)
    : lruCache :=
  match o with
  | Returns (_, c) => c
  | Panics _ => dflt
  end.

(** The example cache after storing [helloResource] under ["/x"], and the
    same after invalidating ["/x"] at the first clock reading. *)
Definition storedCache : lruCache :=
  after (Store allocatedCache helloResource ["/x"%string]) allocatedCache.

Definition staleCache : lruCache :=
  match Invalidate storedCache 0 ["/x"%string] with
  | Returns (c, _) => c
  | Panics _ => storedCache
  end.

(** [NewLRUCache(64)] followed by the same [Store]. *)
Definition freshStoredCache : lruCache :=
  after (Store freshCache helloResource ["/x"%string]) freshCache.

(** [staleCache] after a [Freshen] of ["/x"] with a candidate that has the
    cached status and headers. *)
Definition freshenedCache : lruCache :=
  match Freshen staleCache 1 (candidate 200 (etag "a")) ["/x"%string] with
  | Returns (_, (c, _)) => c
  | Panics _ => staleCache
  end.

(** ** The shape of the stores this package builds *)

(** [storeOk l]: no key occurs twice, the resident weight is within the
    capacity, and every entry holds a [CacheObj] weighted by the length of
    its body, as [Store] and [updateHeader] insert them. *)
Definition storeOk (l : lru.Cache any) : Prop :=
  NoDup (lru.key <$> lru.items l)
  ∧ (lru.total (lru.items l) <= lru.capacity l)%N
  ∧ Forall (λ e, ∃ val, lru.value e = AnyCacheObj val ∧ lru.size e = Size val)
      (lru.items l).

Section Reachable.
Context `{Collaborators}.

(** The cache states a client of the package can get to: a cache comes from
    [NewLRUCache] and is only changed by the exported operations, each of
    which has to return for the client to go on. *)
Inductive reachable : lruCache → Prop :=
  | reach_New sizeBytes c :
      NewLRUCache sizeBytes = Ok c → reachable c
  | reach_Store c res keys err c' :
      reachable c → Store c res keys = Returns (err, c') → reachable c'
  | reach_Retrieve c key :
      reachable c → reachable (Retrieve c key).2
  | reach_Header c key :
      reachable c → reachable (Header c key).2
  | reach_Invalidate c tick keys c' tick' :
      reachable c → Invalidate c tick keys = Returns (c', tick') →
      reachable c'
  | reach_Freshen c tick res keys err c' tick' :
      reachable c → Freshen c tick res keys = Returns (err, (c', tick')) →
      reachable c'.

End Reachable.

(** Declares three bytes, has five at hand. *)
Definition longResource : Resource.t :=
  {| Resource.header := <[ "Content-Length"%string := ["3"%string] ]> (etag "a");
     Resource.statusCode := 200;
     Resource.body := io.NewReader (bytesOf "hello");
     Resource.stale := false |}.

Section Away.
Context `{Collaborators}.


End Away.




(** ** Facts about the Eviction Store *)
Module lru_facts.
Import lru.

Section WithValue.
Context {V : Type}.
Implicit Types (l front rest : list (entry V)) (e : entry V).
Implicit Types (cap : N) (k : string).

Lemma total_app front rest :
  total (front ++ rest) = (total front + total rest)%N.
Proof.
  induction front as [|e front IH]; simpl; [done|].
  rewrite IH. lia.
Qed.

Lemma fitting_all cap l : (total l <= cap)%N → fitting cap l = l.
Proof.
  revert cap. induction l as [|e l IH]; intros cap Hle; simpl in *; [done|].
  destruct (N.leb_spec (size e) cap) as [Hs|Hs]; [|lia].
  f_equal. apply IH. lia.
Qed.

Lemma fitting_app front rest cap :
  (total front <= cap)%N →
  fitting cap (front ++ rest) = front ++ fitting (cap - total front) rest.
Proof.
  revert cap. induction front as [|e front IH]; intros cap Hle; simpl in *.
  - by rewrite N.sub_0_r.
  - destruct (N.leb_spec (size e) cap) as [Hs|Hs]; [|lia].
    rewrite IH by lia.
    by replace (cap - size e - total front)%N
      with (cap - (size e + total front))%N by lia.
Qed.

Lemma fitting_snoc_over cap l e :
  (cap < total (l ++ [e]))%N → fitting cap (l ++ [e]) = fitting cap l.
Proof.
  revert cap. induction l as [|x l IH]; intros cap Hlt; simpl in *.
  - destruct (N.leb_spec (size e) cap); [lia|done].
  - destruct (N.leb_spec (size x) cap) as [Hs|Hs]; [|done].
    f_equal. apply IH. lia.
Qed.

Lemma removeOldest_snoc l e : removeOldest (l ++ [e]) = l.
Proof.
  unfold removeOldest. rewrite length_app. simpl.
  replace (length l + 1 - 1)%nat with (length l) by lia.
  apply take_app_length.
Qed.

Lemma evict_loop_fitting fuel cap l :
  (length l ≤ fuel)%nat → evict_loop fuel cap l = fitting cap l.
Proof.
  revert l. induction fuel as [|fuel IH]; intros l Hlen.
  - destruct l; [done|simpl in Hlen; lia].
  - simpl. destruct (N.leb_spec (total l) cap) as [Hle|Hlt].
    + symmetry. by apply fitting_all.
    + destruct (decide (l = [])) as [->|Hne]; [simpl in Hlt; lia|].
      destruct (exists_last Hne) as (l' & e & ->).
      rewrite removeOldest_snoc, fitting_snoc_over by done.
      apply IH. rewrite length_app in Hlen. simpl in Hlen. lia.
Qed.

(** Eviction keeps exactly the most recently used entries that fit. *)
Lemma evict_fitting cap l : evict cap l = fitting cap l.
Proof. by apply evict_loop_fitting. Qed.

Lemma evict_front cap front rest :
  (total front <= cap)%N →
  evict cap (front ++ rest) = front ++ evict (cap - total front) rest.
Proof.
  intros Hle. rewrite !evict_fitting. by apply fitting_app.
Qed.

Lemma total_fitting cap l : (total (fitting cap l) <= cap)%N.
Proof.
  revert cap. induction l as [|e l IH]; intros cap; simpl; [lia|].
  destruct (N.leb_spec (size e) cap) as [Hs|Hs]; simpl; [|lia].
  specialize (IH (cap - size e)%N). lia.
Qed.

(** The resident weight never exceeds the capacity after an insertion. *)
Lemma AddSize_within_capacity (c : Cache V) k v sz :
  (total (items (AddSize c k v sz)) <= capacity c)%N.
Proof. simpl. rewrite evict_fitting. apply total_fitting. Qed.

Lemma total_uniform (s : N) l :
  Forall (λ e, size e = s) l → total l = (N.of_nat (length l) * s)%N.
Proof.
  induction 1 as [|e l He _ IH]; simpl; [done|]. rewrite IH, He. lia.
Qed.

Lemma find_app k front rest :
  find k (front ++ rest) =
    match find k front with Some e => Some e | None => find k rest end.
Proof.
  induction front as [|e front IH]; simpl; [done|].
  by destruct (decide (key e = k)).
Qed.

Lemma find_Some k l e : find k l = Some e → e ∈ l ∧ key e = k.
Proof.
  induction l as [|x l IH]; simpl; [done|].
  destruct (decide (key x = k)) as [Hk|Hk].
  - intros [= <-]. split; [left|done].
  - intros Hf. destruct (IH Hf). split; [by right|done].
Qed.

Lemma find_elem k l e : e ∈ l → key e = k → is_Some (find k l).
Proof.
  induction 1 as [x l|x y l _ IH]; intros Hk; simpl.
  - rewrite decide_True by done. by eexists.
  - destruct (decide (key y = k)); [by eexists|by apply IH].
Qed.

Lemma find_without k l : find k (without k l) = None.
Proof.
  destruct (find k (without k l)) as [e|] eqn:Hf; [|done].
  apply find_Some in Hf as [Hin Hk].
  apply list_elem_of_filter in Hin as [Hne _]. done.
Qed.

Lemma without_without k l : without k (without k l) = without k l.
Proof.
  unfold without. induction l as [|e l IH]; [done|].
  rewrite filter_cons. case_decide as Hk; [|done].
  rewrite filter_cons, decide_True by done. by rewrite IH.
Qed.

(** [Get] of a key found leaves its entry in front. *)
Lemma Get_found (c : Cache V) k e :
  find k (items c) = Some e →
  Get c k = (Some (value e),
             {| capacity := capacity c; items := e :: without k (items c) |}).
Proof. intros Hf. unfold Get. by rewrite Hf. Qed.

Lemma Get_fst (c : Cache V) k : (Get c k).1 = value <$> find k (items c).
Proof. unfold Get. by destruct (find k (items c)). Qed.

Lemma Get_capacity (c : Cache V) k : capacity (Get c k).2 = capacity c.
Proof. unfold Get. by destruct (find k (items c)). Qed.

(** An entry that fits is found again right after its insertion. *)
Lemma find_AddSize (c : Cache V) k v sz :
  (sz <= capacity c)%N →
  find k (items (AddSize c k v sz)) =
    Some {| key := k; value := v; size := sz |}.
Proof.
  intros Hsz. simpl. rewrite evict_fitting. simpl.
  destruct (N.leb_spec sz (capacity c)); [|lia].
  simpl. by rewrite decide_True.
Qed.

End WithValue.
End lru_facts.

(** ** Properties of the cache operations *)

Section Store.

Implicit Types (c : lruCache) (res : Resource.t) (keys : list string).

Lemma make_accepts len :
  (len <? 0) || (maxAlloc <? len) = false ↔ 0 <= len <= maxAlloc.
Proof.
  rewrite orb_false_iff, !Z.ltb_ge. lia.
Qed.

Lemma Store_full c res keys bytes :
  readsInFull res bytes →
  Store c res keys
    = Returns (None, foldl (storeKey (entryOf res bytes)) c keys).
Proof.
  unfold readsInFull, Store.
  destruct (strconv.ParseInt _) as [len|].
  - intros (Hpos & Hread & Hlen).
    rewrite (proj2 (make_accepts len) Hpos).
    destruct (Resource.Read res (Z.to_nat len)) as [[bs err] res'].
    simpl in Hread. injection Hread as -> ->.
    by rewrite (proj2 (Z.eqb_eq _ _) Hlen).
  - by intros ->.
Qed.

Lemma Store_short c res keys len bytes :
  readsShort res len bytes → Store c res keys = Returns (None, c).
Proof.
  unfold readsShort, Store. intros (-> & Hmax & Hread & Hlen).
  rewrite (proj2 (make_accepts len)) by lia.
  destruct (Resource.Read res (Z.to_nat len)) as [[bs err] res'].
  simpl in Hread. injection Hread as -> ->.
  destruct (Z.eqb_spec (Z.of_nat (length bytes)) len); [lia|done].
Qed.

(** A single [Read] never yields more than it was asked for. *)
Lemma Read_length res n :
  (length (Resource.Read res n).1.1 ≤ n)%nat.
Proof.
  unfold Resource.Read, io.Read. destruct (Resource.body res) as [|s rest].
  - simpl. lia.
  - destruct (Nat.ltb_spec n (length (io.avail s))); simpl.
    + rewrite length_take. lia.
    + done.
Qed.

(** The ways [Store] can end: a panic on a negative declared length, an
    error from the read, a short read, or the insertion loop. *)
Lemma Store_cases c res keys :
  (∃ msg, Store c res keys = Panics msg)
  ∨ (∃ e, Store c res keys = Returns (Some e, c))
  ∨ (∃ len bytes, readsShort res len bytes)
  ∨ (∃ bytes, readsInFull res bytes).
Proof.
  unfold Store, readsShort, readsInFull.
  destruct (strconv.ParseInt _) as [len|].
  - destruct ((len <? 0) || (maxAlloc <? len)) eqn:Hpos; [left; eauto|].
    apply make_accepts in Hpos.
    pose proof (Read_length res (Z.to_nat len)) as Hle.
    destruct (Resource.Read res (Z.to_nat len)) as [[bs [e|]] res'] eqn:HR.
    + right; left; eauto.
    + simpl in Hle. destruct (Z.eqb_spec (Z.of_nat (length bs)) len).
      * do 3 right. exists bs. simpl. auto.
      * right; right; left. exists len, bs. rewrite HR. simpl.
        split; [done|]. split; [lia|]. split; [done|]. lia.
  - destruct (io.ReadAll (Resource.body res)) as [bs [e|]].
    + right; left; eauto.
    + do 3 right. eauto.
Qed.

Lemma storeKey_capacity val c key :
  lru.capacity (cache (storeKey val c key)) = lru.capacity (cache c).
Proof. done. Qed.


Lemma staleTime_storeKey val c key k :
  staleTime (storeKey val c key) k
    = if decide (key = k) then None else staleTime c k.
Proof.
  unfold staleTime, storeKey. simpl. destruct (stale c) as [m|]; simpl.
  - apply lookup_delete.
  - by case_decide.
Qed.

Lemma staleTime_foldl_storeKey_None val c keys k :
  staleTime c k = None → staleTime (foldl (storeKey val) c keys) k = None.
Proof.
  revert c. induction keys as [|key keys IH]; intros c Hc; simpl; [done|].
  apply IH. rewrite staleTime_storeKey. by case_decide.
Qed.

(** The insertion loop clears the overlay at every key it visits. *)
Lemma staleTime_foldl_storeKey val c keys k :
  k ∈ keys → staleTime (foldl (storeKey val) c keys) k = None.
Proof.
  revert c. induction keys as [|key keys IH]; intros c Hin; simpl.
  - by apply elem_of_nil in Hin.
  - destruct (decide (key = k)) as [->|Hne].
    + apply staleTime_foldl_storeKey_None.
      rewrite staleTime_storeKey. by rewrite decide_True.
    + apply IH. apply elem_of_cons in Hin as [?|?]; [congruence|done].
Qed.

(** The loop leaves the overlay alone at every other key. *)
Lemma staleTime_foldl_storeKey_other val c keys k :
  k ∉ keys → staleTime (foldl (storeKey val) c keys) k = staleTime c k.
Proof.
  revert c. induction keys as [|key keys IH]; intros c Hin; simpl; [done|].
  apply not_elem_of_cons in Hin as [Hne Hin].
  rewrite IH by done. rewrite staleTime_storeKey. by rewrite decide_False.
Qed.

End Store.

Section StoreInvariant.
Import lru lru_facts.

Implicit Types (c : lruCache) (val : CacheObj) (keys : list string).

Lemma inFront_storeKey val P n c key :
  inFront val P n (items (cache c)) →
  (N.of_nat (S n) * Size val <= capacity (cache c))%N →
  inFront val (λ k, P k ∨ k = key) (S n) (items (cache (storeKey val c key))).
Proof.
  intros (front & rest & Hl & Hall & Hcover & Hlen) Hcap.
  set (new := {| key := key; value := AnyCacheObj val; size := Size val |}).
  set (front' := new :: without key front).
  assert (Hall' : Forall (λ e, value e = AnyCacheObj val ∧ size e = Size val)
                    front').
  { apply Forall_cons. split; [done|].
    apply Forall_forall. intros e [_ He]%list_elem_of_filter.
    by apply (proj1 (Forall_forall _ _) Hall). }
  assert (Hlen' : (length front' ≤ S n)%nat).
  { simpl. pose proof (length_filter (λ e, lru.key e ≠ key) front).
    unfold without. lia. }
  assert (Htot : (total front' <= capacity (cache c))%N).
  { rewrite (total_uniform (Size val)).
    - nia.
    - eapply Forall_impl; [exact Hall'|]. by intros e [_ ?]. }
  exists front', (evict (capacity (cache c) - total front') (without key rest)).
  split; [|split; [done|split; [|done]]].
  - simpl. rewrite Hl. unfold without at 1. rewrite filter_app.
    exact (evict_front _ front' (without key rest) Htot).
  - intros k [Hk| ->].
    + destruct (decide (k = key)) as [->|Hne].
      * exists new. split; [left|done].
      * destruct (Hcover k Hk) as (e & He & Hek).
        exists e. split; [|done]. right.
        apply list_elem_of_filter. split; [congruence|done].
    + exists new. split; [left|done].
Qed.

Lemma inFront_foldl_storeKey val keys : ∀ P n c,
  inFront val P n (items (cache c)) →
  (N.of_nat (n + length keys) * Size val <= capacity (cache c))%N →
  inFront val (λ k, P k ∨ k ∈ keys) (n + length keys)
    (items (cache (foldl (storeKey val) c keys))).
Proof.
  induction keys as [|key keys IH]; intros P n c Hin Hcap; simpl in *.
  - destruct Hin as (front & rest & ? & ? & Hcover & ?).
    exists front, rest. repeat split; try done; [|lia].
    intros k [Hk|Hk]; [by apply Hcover|by apply elem_of_nil in Hk].
  - apply (inFront_storeKey val P n c key) in Hin; [|lia].
    apply IH in Hin; [|rewrite storeKey_capacity; lia].
    destruct Hin as (front & rest & ? & ? & Hcover & ?).
    exists front, rest. repeat split; try done; [|lia].
    intros k [Hk|Hk]; apply Hcover; [by left; left|].
    apply elem_of_cons in Hk as [->|Hk]; [by left; right|by right].
Qed.

(** After the loop of [Store], every key of the call is found with the
    entry just stored, provided the copies fit the capacity together. *)
Lemma find_foldl_storeKey val c keys k :
  k ∈ keys →
  (N.of_nat (length keys) * Size val <= capacity (cache c))%N →
  ∃ e, find k (items (cache (foldl (storeKey val) c keys))) = Some e
       ∧ value e = AnyCacheObj val ∧ size e = Size val.
Proof.
  intros Hk Hcap.
  assert (Hempty : inFront val (λ _, False) 0 (items (cache c))).
  { exists [], (items (cache c)). repeat split; try done; simpl; lia. }
  destruct (inFront_foldl_storeKey val keys _ _ c Hempty Hcap)
    as (front & rest & Heq & Hall & Hcover & _).
  rewrite Heq.
  destruct (Hcover k (or_intror Hk)) as (e & He & Hek).
  destruct (find_elem k front e He Hek) as [e' He'].
  exists e'. rewrite find_app, He'. split; [done|].
  apply find_Some in He' as [Hin' _].
  by apply (proj1 (Forall_forall _ _) Hall).
Qed.

End StoreInvariant.

Section Lookups.
Import lru lru_facts.
Context `{Collaborators}.

Implicit Types (c : lruCache) (key k : string) (val : CacheObj).

Lemma Get_Get (l : Cache any) k : Get (Get l k).2 k = Get l k.
Proof.
  unfold Get at 2 3. destruct (find k (items l)) as [e|] eqn:Hf; simpl.
  - apply find_Some in Hf as Hk. destruct Hk as [_ Hk].
    unfold Get. simpl. rewrite decide_True by done. simpl.
    do 2 f_equal. f_equal. unfold without at 1.
    rewrite filter_cons, decide_False by (intros Hne; by apply Hne).
    apply without_without.
  - unfold Get. by rewrite Hf.
Qed.

Lemma Get_cached c key val :
  cached c key = Some val → (Get (cache c) key).1 = Some (AnyCacheObj val).
Proof.
  unfold cached. rewrite Get_fst.
  destruct (find key (items (cache c))) as [e|]; [|done]. simpl.
  destruct (value e); [|done]. by intros [= ->].
Qed.

Lemma Header_touched c key : (Header c key).2 = touched c key.
Proof.
  unfold Header, touched. destruct (Get (cache c) key) as [[[o|ty]|] l]; done.
Qed.

Lemma Header_cached c key val :
  cached c key = Some val →
  Header c key
    = (Ok {| Header_Header := headers val; StatusCode := code val |},
       touched c key).
Proof.
  intros Hc%Get_cached. unfold Header, touched.
  destruct (Get (cache c) key) as [ival l]. simpl in Hc. by subst ival.
Qed.

Lemma Header_Ok c key h c1 :
  Header c key = (Ok h, c1) →
  ∃ val, cached c key = Some val
         ∧ h = {| Header_Header := headers val; StatusCode := code val |}
         ∧ c1 = touched c key.
Proof.
  unfold Header, touched, cached. rewrite (surjective_pairing (Get _ _)).
  rewrite Get_fst. destruct (find key (items (cache c))) as [e|]; simpl.
  - destruct (value e) as [val|ty]; [|done]. intros [= <- <-]. by exists val.
  - done.
Qed.

Lemma Header_Error c key e c1 :
  Header c key = (Error e, c1) → cached c key = None ∧ c1 = touched c key.
Proof.
  unfold Header, touched, cached. rewrite (surjective_pairing (Get _ _)).
  rewrite Get_fst. destruct (find key (items (cache c))) as [x|]; simpl.
  - destruct (value x) as [val|ty]; [done|]. by intros [= <- <-].
  - by intros [= <- <-].
Qed.

Lemma Retrieve_touched c key : (Retrieve c key).2 = touched c key.
Proof.
  unfold Retrieve, touched.
  destruct (Get (cache c) key) as [[[o|ty]|] l]; done.
Qed.

Lemma Retrieve_cached c key val :
  cached c key = Some val →
  Retrieve c key
    = (Ok (let res := NewResourceBytes (code val) (body val) (headers val) in
           match staleTime c key with
           | Some t => if negb (DateAfter res t) then Resource.MarkStale res
                       else res
           | None => res
           end),
       touched c key).
Proof.
  intros Hc%Get_cached. unfold Retrieve, touched.
  destruct (Get (cache c) key) as [ival l]. simpl in Hc. by subst ival.
Qed.

Lemma cached_touched c key k : cached (touched c key) k = cached c k.
Proof.
  unfold cached, touched, Get. simpl.
  destruct (find key (items (cache c))) as [e|] eqn:Hf; simpl; [|done].
  apply find_Some in Hf as Hk. destruct Hk as [Hin Hk].
  destruct (decide (key = k)) as [<-|Hne].
  - rewrite decide_True by done. by rewrite Hf.
  - rewrite decide_False by congruence.
    clear Hf Hin Hk. induction (items (cache c)) as [|x l IH]; [done|].
    unfold without. rewrite filter_cons. simpl.
    destruct (decide (lru.key x = k)) as [Hx|Hx].
    + rewrite decide_True by congruence. simpl. by rewrite decide_True.
    + case_decide; simpl; [by rewrite decide_False|]; apply IH.
Qed.

Lemma staleTime_touched c key k : staleTime (touched c key) k = staleTime c k.
Proof. done. Qed.

(** Right after a successful lookup, [updateHeader] finds the value. *)
Lemma updateHeader_touched c key val hdrs code' :
  cached c key = Some val →
  updateHeader (touched c key) key hdrs code'
    = (None,
       {| cache := AddSize (cache (touched c key)) key
                     (AnyCacheObj (refreshed val hdrs code')) (Size val);
          stale := stale c |}).
Proof.
  intros Hc. unfold updateHeader. simpl. rewrite Get_Get.
  apply Get_cached in Hc.
  destruct (Get (cache c) key) as [ival l]. simpl in *. by subst ival.
Qed.

(** An [updateHeader] failure means the key holds no [CacheObj]. *)
Lemma updateHeader_error c key hdrs code' e c' :
  updateHeader c key hdrs code' = (Some e, c') → cached c key = None.
Proof.
  unfold updateHeader, cached. rewrite (surjective_pairing (Get _ _)).
  rewrite Get_fst. destruct (find key (items (cache c))) as [x|]; simpl.
  - by destruct (value x).
  - done.
Qed.

Lemma updateHeader_stale c key hdrs code' :
  stale (updateHeader c key hdrs code').2 = stale c.
Proof.
  unfold updateHeader. by destruct (Get (cache c) key) as [[[o|ty]|] l].
Qed.

End Lookups.

Section Overlay.
Import lru lru_facts.
Context `{Collaborators}.

Implicit Types (c : lruCache) (key k : string) (keys : list string).
Implicit Types (res : Resource.t) (val : CacheObj).

Lemma Invalidate_nil_overlay c tick key keys :
  stale c = None →
  Invalidate c tick (key :: keys) = Panics "assignment to entry in nil map".
Proof. intros Hnil. simpl. by rewrite Hnil. Qed.

(** With an allocated overlay [Invalidate] returns, having recorded every
    key and dropped none; the store is not touched. *)
Lemma Invalidate_allocated keys : ∀ c tick m,
  stale c = Some m →
  ∃ m', Invalidate c tick keys
          = Returns ({| cache := cache c; stale := Some m' |},
                     (tick + length keys)%nat)
        ∧ (∀ k, is_Some (m !! k) → is_Some (m' !! k))
        ∧ (∀ k, k ∈ keys → is_Some (m' !! k)).
Proof.
  induction keys as [|key keys IH]; intros c tick m Hm; simpl.
  - exists m. rewrite Nat.add_0_r. split; [by destruct c; simpl in *; subst|].
    split; [done|]. intros k Hk. by apply elem_of_nil in Hk.
  - rewrite Hm.
    destruct (IH {| cache := cache c; stale := Some (<[key:=Clock tick]> m) |}
                (S tick) _ eq_refl) as (m' & -> & Hkeep & Hnew).
    exists m'. split; [simpl; do 2 f_equal; lia|]. split.
    + intros k Hk. apply Hkeep. rewrite lookup_insert_is_Some. 
      destruct (decide (key = k)); auto.
    + intros k [->|Hk]%elem_of_cons; [|by apply Hnew].
      apply Hkeep. rewrite lookup_insert_eq. by eexists.
Qed.

Lemma Invalidate_one c tick key m :
  stale c = Some m →
  Invalidate c tick [key]
    = Returns ({| cache := cache c; stale := Some (<[key:=Clock tick]> m) |},
               S tick).
Proof. intros Hm. simpl. by rewrite Hm. Qed.

(** The three ways one round of the loop of [Freshen] goes. *)
Lemma Freshen_absent c tick res key keys :
  cached c key = None →
  Freshen c tick res (key :: keys) = Freshen (touched c key) tick res keys.
Proof.
  intros Hc. cbn [Freshen].
  destruct (Header c key) as [[h|e] c1] eqn:Hh.
  - apply Header_Ok in Hh as (val & Hval & _). congruence.
  - by apply Header_Error in Hh as [_ ->].
Qed.

Lemma Freshen_match c tick res key keys val :
  cached c key = Some val →
  code val = Resource.Status res →
  headersEqual (headers val) (Resource.Header res) = true →
  Freshen c tick res (key :: keys)
    = Freshen
        {| cache := AddSize (cache (touched c key)) key
                      (AnyCacheObj
                         (refreshed val (Resource.Header res) (code val)))
                      (Size val);
           stale := stale c |}
        tick res keys.
Proof.
  intros Hc Hcode Heq. cbn [Freshen].
  rewrite (Header_cached _ _ _ Hc). cbn [StatusCode Header_Header].
  rewrite Hcode, Z.eqb_refl, Heq. cbn [andb].
  by rewrite <- Hcode, (updateHeader_touched _ _ _ _ _ Hc).
Qed.

Lemma Freshen_mismatch c tick res key keys val :
  cached c key = Some val →
  (code val =? Resource.Status res)
    && headersEqual (headers val) (Resource.Header res) = false →
  Freshen c tick res (key :: keys)
    = match stale c with
      | None => Panics "assignment to entry in nil map"
      | Some m =>
          Freshen {| cache := cache (touched c key);
                     stale := Some (<[key:=Clock tick]> m) |}
                  (S tick) res keys
      end.
Proof.
  intros Hc Hne. cbn [Freshen].
  rewrite (Header_cached _ _ _ Hc). cbn [StatusCode Header_Header].
  rewrite Hne. simpl. by destruct (stale c).
Qed.

(** Run in sequence, [Freshen] never takes its only [return err]: the
    lookup of [updateHeader] repeats the one [Header] just made. *)
Lemma Freshen_never_errors keys : ∀ c tick res e s,
  Freshen c tick res keys ≠ Returns (Some e, s).
Proof.
  induction keys as [|key keys IH]; intros c tick res e s; [done|].
  destruct (cached c key) as [val|] eqn:Hc.
  - destruct ((code val =? Resource.Status res)
              && headersEqual (headers val) (Resource.Header res)) eqn:Hm.
    + apply andb_prop in Hm as [Hcode%Z.eqb_eq Heq].
      rewrite (Freshen_match _ _ _ _ _ _ Hc Hcode Heq). apply IH.
    + rewrite (Freshen_mismatch _ _ _ _ _ _ Hc Hm).
      destruct (stale c); [apply IH|done].
  - rewrite (Freshen_absent _ _ _ _ _ Hc). apply IH.
Qed.

(** No overlay entry disappears in [Freshen]. *)
Lemma Freshen_keeps_overlay keys : ∀ c tick res err c' tick' k,
  Freshen c tick res keys = Returns (err, (c', tick')) →
  is_Some (staleTime c k) → is_Some (staleTime c' k).
Proof.
  induction keys as [|key keys IH]; intros c tick res err c' tick' k.
  - by intros [= _ <- _].
  - destruct (cached c key) as [val|] eqn:Hc.
    + destruct ((code val =? Resource.Status res)
                && headersEqual (headers val) (Resource.Header res)) eqn:Hm.
      * apply andb_prop in Hm as [Hcode%Z.eqb_eq Heq].
        rewrite (Freshen_match _ _ _ _ _ _ Hc Hcode Heq).
        intros Hf Hk. by eapply IH.
      * rewrite (Freshen_mismatch _ _ _ _ _ _ Hc Hm).
        unfold staleTime at 1.
        destruct (stale c) as [m|]; [|done].
        intros Hf Hk. eapply IH; [exact Hf|]. unfold staleTime. simpl.
        rewrite lookup_insert_is_Some. destruct (decide (key = k)); auto.
    + rewrite (Freshen_absent _ _ _ _ _ Hc). intros Hf Hk. by eapply IH.
Qed.

(** On a cache whose overlay was never allocated, a [Freshen] that returns
    has met no mismatch and leaves the overlay unallocated. *)
Lemma Freshen_nil_overlay keys : ∀ c tick res err c' tick',
  stale c = None →
  Freshen c tick res keys = Returns (err, (c', tick')) →
  stale c' = None ∧ tick' = tick.
Proof.
  induction keys as [|key keys IH]; intros c tick res err c' tick' Hnil.
  - by intros [= _ <- <-].
  - destruct (cached c key) as [val|] eqn:Hc.
    + destruct ((code val =? Resource.Status res)
                && headersEqual (headers val) (Resource.Header res)) eqn:Hm.
      * apply andb_prop in Hm as [Hcode%Z.eqb_eq Heq].
        rewrite (Freshen_match _ _ _ _ _ _ Hc Hcode Heq). by apply IH.
      * by rewrite (Freshen_mismatch _ _ _ _ _ _ Hc Hm), Hnil.
    + rewrite (Freshen_absent _ _ _ _ _ Hc). by apply IH.
Qed.

(** Neither [Retrieve] nor [Header] nor [updateHeader] writes the
    overlay. *)
Lemma Retrieve_keeps_overlay c key : stale (Retrieve c key).2 = stale c.
Proof. by rewrite Retrieve_touched. Qed.

Lemma Header_keeps_overlay c key : stale (Header c key).2 = stale c.
Proof. by rewrite Header_touched. Qed.

(** A [Store] that reads the body in full clears the overlay at each of
    its keys and nowhere else. *)
Lemma Store_full_clears_overlay c res keys bytes :
  readsInFull res bytes →
  ∃ c', Store c res keys = Returns (None, c')
        ∧ (∀ k, k ∈ keys → staleTime c' k = None)
        ∧ (∀ k, k ∉ keys → staleTime c' k = staleTime c k).
Proof.
  intros Hfull. eexists. split; [by apply Store_full|]. split.
  - intros k Hk. by apply staleTime_foldl_storeKey.
  - intros k Hk. by apply staleTime_foldl_storeKey_other.
Qed.

(** A cache whose overlay was never allocated stays that way. *)
Lemma Store_nil_overlay c res keys err c' :
  stale c = None → Store c res keys = Returns (err, c') → stale c' = None.
Proof.
  intros Hnil.
  assert (Hloop : ∀ val, stale (foldl (storeKey val) c keys) = None).
  { intros val. revert c Hnil.
    induction keys as [|k keys IH]; intros c Hnil; simpl; [done|].
    apply IH. simpl. by rewrite Hnil. }
  unfold Store.
  destruct (strconv.ParseInt _) as [len|].
  - destruct ((len <? 0) || (maxAlloc <? len)); [done|].
    destruct (Resource.Read res (Z.to_nat len)) as [[bs [e|]] res'].
    + by intros [= _ <-].
    + destruct (negb _); [by intros [= _ <-]|]. intros [= _ <-]. apply Hloop.
  - destruct (io.ReadAll (Resource.body res)) as [bs [e|]].
    + by intros [= _ <-].
    + intros [= _ <-]. apply Hloop.
Qed.

End Overlay.

(** ** The claims *)

Section Claims.
Import lru lru_facts.
Context `{Collaborators}.

Implicit Types (c : lruCache) (key k : string) (keys : list string).
Implicit Types (res : Resource.t) (val : CacheObj).

Lemma ReadAll_NewReader (b : list Byte.byte) :
  io.ReadAll (io.NewReader b) = (b, None).
Proof. destruct b as [|x b]; simpl; [done|]. by rewrite app_nil_r. Qed.

(** C1, as the code has it.  When the resource declares a parseable
    Content-Length of [len] bytes, a length the buffer can be made with,
    and the single body read yields fewer bytes without an error, [Store]
    returns the nil error of that read and leaves the cache as it was: the
    short read is not reported. *)
Theorem Store_short_read_returns_nil c res keys len bytes :
  strconv.ParseInt (http.Get (Resource.Header res) "Content-Length")
    = Some len →
  len <= maxAlloc →
  (Resource.Read res (Z.to_nat len)).1 = (bytes, None) →
  Z.of_nat (length bytes) < len →
  Store c res keys = Returns (None, c).
Proof.
  intros Hparse Hmax Hread Hlen.
  by apply (Store_short c res keys len bytes).
Qed.

(** C2, as the code has it.  On every cache constructed by [NewLRUCache],
    [Invalidate] with a non-empty list of keys panics at its first
    assignment: the overlay map of such a cache is nil. *)
Theorem Invalidate_new_cache_panics sizeBytes c tick key keys :
  NewLRUCache sizeBytes = Ok c →
  Invalidate c tick (key :: keys) = Panics "assignment to entry in nil map".
Proof.
  unfold NewLRUCache. destruct (NewLargeWithEvict sizeBytes) as [l|e]; [|done].
  intros [= <-]. by apply Invalidate_nil_overlay.
Qed.

(** On a cache value whose overlay holds the key (timestamp [t]; no cache
    built by [NewLRUCache] is such a value), with the entry present and
    within capacity, a [Freshen] whose candidate has the cached status code
    and an equal header set returns no error and leaves the overlay entry in
    place; the next [Retrieve] of the key reports the stale flag false
    exactly when the refreshed resource (cached status and body, the
    candidate's headers) has an effective date strictly after [t], and true
    otherwise. *)
Theorem Freshen_match_keeps_overlay_entry c tick res key val t :
  staleTime c key = Some t →
  cached c key = Some val →
  code val = Resource.Status res →
  headersEqual (headers val) (Resource.Header res) = true →
  (Size val <= capacity (cache c))%N →
  ∃ c1 r,
    Freshen c tick res [key] = Returns (None, (c1, tick))
    ∧ staleTime c1 key = Some t
    ∧ Retrieve c1 key = (Ok r, touched c1 key)
    ∧ Resource.stale r
      = negb (DateAfter
                (NewResourceBytes (code val) (body val) (Resource.Header res))
                t).
Proof.
  intros Ht Hc Hcode Heq Hcap.
  eexists _, _. split; [by rewrite (Freshen_match _ _ _ _ _ _ Hc Hcode Heq)|].
  split; [done|].
  set (c1 := {| cache := _; stale := stale c |}).
  assert (Hc1 : cached c1 key
                = Some (refreshed val (Resource.Header res) (code val))).
  { unfold cached, c1. cbn [cache]. rewrite find_AddSize; [done|].
    unfold touched. cbn [cache]. by rewrite Get_capacity. }
  rewrite (Retrieve_cached _ _ _ Hc1). split; [reflexivity|].
  change (staleTime {| cache := _; stale := stale c |} key)
    with (staleTime c key). rewrite Ht.
  cbn [refreshed code body headers].
  by destruct (DateAfter _ t).
Qed.

(** When [Store] reads the body in full ([bytes]) and the copies made for
    its keys fit the capacity together, it returns no error and [Retrieve]
    of any of its keys then returns a resource with the same status code,
    the same header multi-map, a body stream that reads as exactly
    [bytes], and the stale flag false. *)
Theorem Store_Retrieve_roundtrip c res keys bytes k :
  readsInFull res bytes →
  k ∈ keys →
  (N.of_nat (length keys) * N.of_nat (length bytes) <= capacity (cache c))%N →
  ∃ c' r,
    Store c res keys = Returns (None, c')
    ∧ Retrieve c' k = (Ok r, touched c' k)
    ∧ r = NewResourceBytes (Resource.statusCode res) bytes (Resource.Header res)
    ∧ Resource.Status r = Resource.Status res
    ∧ Resource.Header r = Resource.Header res
    ∧ io.ReadAll (Resource.body r) = (bytes, None)
    ∧ Resource.stale r = false.
Proof.
  intros Hfull Hk Hcap.
  set (val := entryOf res bytes).
  set (c' := foldl (storeKey val) c keys).
  destruct (find_foldl_storeKey val c keys k Hk Hcap) as (e & Hfind & He & _).
  assert (Hc' : cached c' k = Some val).
  { unfold cached. fold c' in Hfind. by rewrite Hfind, He. }
  exists c'. eexists. split; [by apply Store_full|].
  rewrite (Retrieve_cached _ _ _ Hc').
  unfold c'. rewrite (staleTime_foldl_storeKey val c keys k Hk).
  split; [reflexivity|]. cbn.
  repeat split; try done. apply ReadAll_NewReader.
Qed.

(** C5.  For a key present in the store, [Retrieve] returns a resource
    whose stale flag is set if and only if the key is in the Stale Overlay
    and the effective date of the rebuilt resource is not strictly after
    the overlay's timestamp; in both cases the overlay is left as it
    was. *)
Theorem Retrieve_stale_iff c key val :
  cached c key = Some val →
  ∃ r c',
    Retrieve c key = (Ok r, c')
    ∧ (Resource.stale r = true
       ↔ ∃ t, staleTime c key = Some t
              ∧ DateAfter
                  (NewResourceBytes (code val) (body val) (headers val)) t
                = false)
    ∧ stale c' = stale c.
Proof.
  intros Hc. eexists _, _. split; [by apply Retrieve_cached|].
  split; [|done]. cbn zeta.
  destruct (staleTime c key) as [t|].
  - destruct (DateAfter _ t) eqn:Hd; simpl.
    + split; [done|]. intros (t' & [= <-] & Hd'). congruence.
    + split; [|done]. intros _. by exists t.
  - simpl. split; [done|]. by intros (t & ? & _).
Qed.

(** On a cache value whose overlay holds a key of the call (no cache built
    by [NewLRUCache] is such a value), a short read (fewer bytes than the
    declared Content-Length, no read error) makes [Store] return nil with
    the overlay entry still there. *)
Theorem Store_short_read_keeps_overlay c res keys len bytes k t :
  readsShort res len bytes →
  k ∈ keys →
  staleTime c k = Some t →
  ∃ c', Store c res keys = Returns (None, c') ∧ staleTime c' k = Some t.
Proof.
  intros Hshort _ Ht. exists c. split; [|done].
  by apply (Store_short c res keys len bytes).
Qed.

(** C7.  For a key whose cached status code and header set equal the
    candidate's, the round of [Freshen] for that key raises no error,
    leaves the overlay alone and changes the store by one re-insertion
    under that key: the value has the stored body unchanged, the
    candidate's headers and the cached status, and its weight is the length
    of that body; [Freshen] then goes on with the remaining keys.  When
    that weight fits the capacity the entry is found in the store after
    the round. *)
Theorem Freshen_match_keeps_body c tick res key keys val :
  cached c key = Some val →
  code val = Resource.Status res →
  headersEqual (headers val) (Resource.Header res) = true →
  let val' := {| body := body val;
                 headers := Resource.Header res;
                 code := code val |} in
  let weight := N.of_nat (length (body val)) in
  ∃ c',
    Freshen c tick res (key :: keys) = Freshen c' tick res keys
    ∧ Freshen c tick res [key] = Returns (None, (c', tick))
    ∧ cache c'
      = AddSize (cache (touched c key)) key (AnyCacheObj val') weight
    ∧ stale c' = stale c
    ∧ ((weight <= capacity (cache c))%N →
       find key (items (cache c'))
       = Some {| key := key; value := AnyCacheObj val'; size := weight |}).
Proof.
  intros Hc Hcode Heq val' weight.
  eexists. split; [by rewrite (Freshen_match _ _ _ _ _ _ Hc Hcode Heq)|].
  split; [by rewrite (Freshen_match _ _ _ _ _ _ Hc Hcode Heq)|].
  split; [done|]. split; [done|].
  intros Hcap. cbn [cache]. apply find_AddSize.
  unfold touched. cbn [cache]. by rewrite Get_capacity.
Qed.

(** C8.  [Header] does not depend on the Stale Overlay: on two caches with
    the same Eviction Store it returns the same result (headers and
    status, or error) and leaves the same Eviction Store, whatever the
    two overlays are; each overlay is left as it was. *)
Theorem Header_ignores_overlay c1 c2 key :
  cache c1 = cache c2 →
  (Header c1 key).1 = (Header c2 key).1
  ∧ cache (Header c1 key).2 = cache (Header c2 key).2
  ∧ stale (Header c1 key).2 = stale c1
  ∧ stale (Header c2 key).2 = stale c2.
Proof.
  intros Hsame. unfold Header. rewrite Hsame.
  by destruct (Get (cache c2) key) as [[[o|ty]|] l].
Qed.

(** C9, as the code has it.  On a cache whose overlay map is nil, as
    [NewLRUCache] leaves it, a [Freshen] that meets a key whose cached
    status or headers differ from the candidate's does not return: the
    invalidation of that key panics. *)
Theorem Freshen_mismatch_panics c tick res key keys h c1 :
  stale c = None →
  Header c key = (Ok h, c1) →
  (StatusCode h =? Resource.Status res)
    && headersEqual (Header_Header h) (Resource.Header res) = false →
  Freshen c tick res (key :: keys) = Panics "assignment to entry in nil map".
Proof.
  intros Hnil Hh Hne.
  apply Header_Ok in Hh as (val & Hc & -> & _).
  by rewrite (Freshen_mismatch _ _ _ _ _ _ Hc Hne), Hnil.
Qed.

(** C10.  Whenever [Store] returns a non-nil error, the cache (Eviction
    Store and Stale Overlay) is exactly as it was before the call. *)
Theorem Store_error_leaves_cache c res keys e c' :
  Store c res keys = Returns (Some e, c') → c' = c.
Proof.
  unfold Store.
  destruct (strconv.ParseInt _) as [len|].
  - destruct ((len <? 0) || (maxAlloc <? len)); [done|].
    destruct (Resource.Read res (Z.to_nat len)) as [[bs [e'|]] res'].
    + by intros [= _ <-].
    + by destruct (negb _).
  - destruct (io.ReadAll (Resource.body res)) as [bs [e'|]].
    + by intros [= _ <-].
    + done.
Qed.

End Claims.

(** ** More facts about the Eviction Store *)
Module lru_order.
Import lru lru_facts.

Section WithValue.
Context {V : Type}.
Implicit Types (l rest : list (entry V)) (e : entry V).
Implicit Types (cap : N) (k : string).

Lemma keys_without k l x :
  x ∈ key <$> without k l ↔ x ≠ k ∧ x ∈ key <$> l.
Proof.
  rewrite !list_elem_of_fmap. split.
  - intros (e & -> & [Hne He]%list_elem_of_filter). eauto.
  - intros (Hne & e & -> & He). exists e. split; [done|].
    by apply list_elem_of_filter.
Qed.

Lemma without_cons_eq k e l : key e = k → without k (e :: l) = without k l.
Proof.
  intros Hk. unfold without. rewrite filter_cons, decide_False; [done|].
  by intros Hne.
Qed.

Lemma without_cons_ne k e l :
  key e ≠ k → without k (e :: l) = e :: without k l.
Proof. intros Hk. unfold without. by rewrite filter_cons, decide_True. Qed.

Lemma NoDup_without k l :
  NoDup (key <$> l) → NoDup (key <$> without k l).
Proof.
  induction l as [|e l IH]; [done|]. rewrite fmap_cons, NoDup_cons.
  intros [Hnotin Hnd]. destruct (decide (key e = k)) as [Hk|Hk].
  - rewrite without_cons_eq by done. by apply IH.
  - rewrite without_cons_ne by done. rewrite fmap_cons, NoDup_cons.
    split; [|by apply IH]. rewrite keys_without. by intros [_ ?].
Qed.

Lemma without_absent k l : k ∉ key <$> l → without k l = l.
Proof.
  induction l as [|e l IH]; [done|]. rewrite fmap_cons, not_elem_of_cons.
  intros [Hne Hnotin]. rewrite without_cons_ne by done. by rewrite IH.
Qed.

Lemma find_absent k l : find k l = None ↔ k ∉ key <$> l.
Proof.
  induction l as [|e l IH]; simpl.
  - split; [intros _; apply not_elem_of_nil|done].
  - rewrite not_elem_of_cons. destruct (decide (key e = k)) as [Hk|Hk].
    + split; [done|]. by intros [? _].
    + rewrite IH. split; [by intros ?; split|by intros [_ ?]].
Qed.

Lemma find_without_ne k k' l : k' ≠ k → find k' (without k l) = find k' l.
Proof.
  intros Hne. induction l as [|e l IH]; [done|].
  destruct (decide (key e = k)) as [Hk|Hk].
  - rewrite without_cons_eq by done. simpl.
    rewrite decide_False by congruence. apply IH.
  - rewrite without_cons_ne by done. simpl. by rewrite IH.
Qed.

(** Moving an entry to the front keeps the resident weight. *)
Lemma total_touch k l e :
  NoDup (key <$> l) → find k l = Some e →
  total (e :: without k l) = total l.
Proof.
  induction l as [|x l IH]; [done|]. rewrite fmap_cons, NoDup_cons.
  intros [Hnotin Hnd]. simpl. destruct (decide (key x = k)) as [Hk|Hk].
  - intros [= <-]. rewrite without_cons_eq by done.
    rewrite without_absent; [done|]. by rewrite <- Hk.
  - intros Hf. rewrite without_cons_ne by done. simpl.
    specialize (IH Hnd Hf). simpl in IH. lia.
Qed.

Lemma total_without_le k l : (total (without k l) <= total l)%N.
Proof.
  induction l as [|x l IH]; [done|]. destruct (decide (key x = k)) as [Hk|Hk].
  - rewrite without_cons_eq by done. simpl. lia.
  - rewrite without_cons_ne by done. simpl. lia.
Qed.

(** What eviction leaves is an initial part of the list. *)
Lemma fitting_prefix cap l : ∃ rest, l = fitting cap l ++ rest.
Proof.
  revert cap. induction l as [|e l IH]; intros cap; simpl.
  - by exists [].
  - destruct (size e <=? cap)%N; [|by eexists].
    destruct (IH (cap - size e)%N) as [rest Hrest].
    exists rest. simpl. by rewrite <- Hrest.
Qed.

End WithValue.
End lru_order.

(** ** The shape of the store is kept *)

Section StoreShape.
Import lru lru_facts lru_order.
Context `{Collaborators}.

Implicit Types (c : lruCache) (l : Cache any) (key k : string).
Implicit Types (keys : list string) (res : Resource.t) (val : CacheObj).

Lemma storeOk_Get l k : storeOk l → storeOk (Get l k).2.
Proof.
  intros (Hnd & Htot & Hall). unfold Get.
  destruct (find k (items l)) as [e|] eqn:Hf; [|done].
  apply find_Some in Hf as He. destruct He as [Hin Hk].
  unfold storeOk. cbn [snd items capacity]. split; [|split].
  - rewrite fmap_cons, NoDup_cons. split; [|by apply NoDup_without].
    rewrite Hk, keys_without. by intros [? _].
  - by rewrite (total_touch k (items l) e Hnd Hf).
  - apply Forall_cons. split.
    + by apply (proj1 (Forall_forall _ _) Hall).
    + apply Forall_forall. intros x [_ Hx]%list_elem_of_filter.
      by apply (proj1 (Forall_forall _ _) Hall).
Qed.

Lemma storeOk_AddSize l k val :
  storeOk l → storeOk (AddSize l k (AnyCacheObj val) (Size val)).
Proof.
  intros (Hnd & Htot & Hall). unfold AddSize, storeOk. simpl.
  rewrite evict_fitting.
  set (new := {| key := k; value := AnyCacheObj val; size := Size val |}).
  destruct (fitting_prefix (capacity l) (new :: without k (items l)))
    as [rest Hrest].
  assert (Hnd' : NoDup (key <$> new :: without k (items l))).
  { rewrite fmap_cons, NoDup_cons. split; [|by apply NoDup_without].
    simpl. rewrite keys_without. by intros [? _]. }
  assert (Hall' : Forall (λ e, ∃ v, value e = AnyCacheObj v ∧ size e = Size v)
                    (new :: without k (items l))).
  { apply Forall_cons. split; [by exists val|].
    apply Forall_forall. intros x [_ Hx]%list_elem_of_filter.
    by apply (proj1 (Forall_forall _ _) Hall). }
  rewrite Hrest in Hnd', Hall'. rewrite fmap_app in Hnd'.
  apply NoDup_app in Hnd' as (Hnd' & _ & _).
  apply Forall_app in Hall' as [Hall' _].
  split; [done|]. split; [apply total_fitting|done].
Qed.

Lemma storeOk_NewLRUCache sizeBytes c :
  NewLRUCache sizeBytes = Ok c → storeOk (cache c).
Proof.
  unfold NewLRUCache, NewLargeWithEvict.
  destruct (sizeBytes =? 0)%N; [done|]. intros [= <-].
  repeat split; simpl; [apply NoDup_nil_2|lia|done].
Qed.

Lemma storeOk_foldl_storeKey val keys : ∀ c,
  storeOk (cache c) → storeOk (cache (foldl (storeKey val) c keys)).
Proof.
  induction keys as [|k keys IH]; intros c Hok; simpl; [done|].
  apply IH. simpl. by apply storeOk_AddSize.
Qed.

(** When [Store] returns, it has either left the cache alone or run its
    loop with the bytes read. *)
Lemma Store_Returns c res keys err c' :
  Store c res keys = Returns (err, c') →
  c' = c
  ∨ ∃ bytes, err = None ∧ readsInFull res bytes
             ∧ c' = foldl (storeKey (entryOf res bytes)) c keys.
Proof.
  unfold Store, readsInFull.
  destruct (strconv.ParseInt _) as [len|].
  - destruct ((len <? 0) || (maxAlloc <? len)) eqn:Hpos; [done|].
    apply make_accepts in Hpos.
    destruct (Resource.Read res (Z.to_nat len)) as [[bs [e|]] res'].
    + intros [= _ <-]. by left.
    + destruct (Z.eqb_spec (Z.of_nat (length bs)) len) as [Hlen|Hlen]; simpl.
      * intros [= <- <-]. right. by exists bs.
      * intros [= _ <-]. by left.
  - destruct (io.ReadAll (Resource.body res)) as [bs [e|]].
    + intros [= _ <-]. by left.
    + intros [= <- <-]. right. by exists bs.
Qed.

Lemma storeOk_Store c res keys err c' :
  storeOk (cache c) → Store c res keys = Returns (err, c') →
  storeOk (cache c').
Proof.
  intros Hok [->|(bytes & _ & _ & ->)]%Store_Returns; [done|].
  by apply storeOk_foldl_storeKey.
Qed.

Lemma storeOk_touched c key : storeOk (cache c) → storeOk (cache (touched c key)).
Proof. intros Hok. by apply storeOk_Get. Qed.

Lemma Invalidate_cache keys : ∀ c tick c' tick',
  Invalidate c tick keys = Returns (c', tick') → cache c' = cache c.
Proof.
  induction keys as [|key keys IH]; intros c tick c' tick'; simpl.
  - by intros [= <- _].
  - destruct (stale c) as [m|]; [|done]. intros Hi. by apply IH in Hi.
Qed.

(** In a well-shaped store a key without a [CacheObj] is not there at all. *)
Lemma cached_None c key :
  storeOk (cache c) → cached c key = None →
  find key (items (cache c)) = None.
Proof.
  intros (_ & _ & Hall). unfold cached.
  destruct (find key (items (cache c))) as [e|] eqn:Hf; [|done].
  apply find_Some in Hf as [Hin _].
  destruct (proj1 (Forall_forall _ _) Hall e Hin) as (v & -> & _). done.
Qed.

Lemma touched_absent c key :
  find key (items (cache c)) = None → touched c key = c.
Proof.
  intros Hf. unfold touched, Get. rewrite Hf. by destruct c.
Qed.

(** Re-inserting a value of the same weight under a key that is present
    changes that one entry and evicts nothing. *)
Lemma refresh_items l key val val' :
  storeOk l →
  (∃ e, find key (items l) = Some e ∧ value e = AnyCacheObj val) →
  Size val' = Size val →
  items (AddSize (Get l key).2 key (AnyCacheObj val') (Size val'))
    = {| key := key; value := AnyCacheObj val'; size := Size val' |}
        :: without key (items l).
Proof.
  intros (Hnd & Htot & Hall) (e & Hf & He) Hsize.
  rewrite (Get_found l key e Hf). unfold AddSize. simpl.
  apply find_Some in Hf as Hin. destruct Hin as [Hin Hk].
  rewrite without_cons_eq, without_without by done.
  rewrite evict_fitting. apply fitting_all. simpl.
  destruct (proj1 (Forall_forall _ _) Hall e Hin) as (v & Hv & Hsz).
  assert (v = val) as -> by congruence.
  rewrite <- (total_touch key (items l) e Hnd Hf) in Htot. simpl in Htot.
  rewrite Hsize, <- Hsz. done.
Qed.

Lemma cached_reinsert c key val val' k :
  storeOk (cache c) → cached c key = Some val → Size val' = Size val →
  cached {| cache := AddSize (cache (touched c key)) key
                       (AnyCacheObj val') (Size val');
            stale := stale c |} k
    = if decide (k = key) then Some val' else cached c k.
Proof.
  intros Hok Hc Hsize. unfold cached at 1. cbn [cache touched].
  rewrite (refresh_items _ key val val' Hok); [| |done].
  - simpl. destruct (decide (key = k)) as [->|Hne].
    + by rewrite decide_True.
    + rewrite decide_False by congruence. unfold cached.
      by rewrite find_without_ne by congruence.
  - unfold cached in Hc.
    destruct (find key (items (cache c))) as [e|]; [|done].
    exists e. split; [done|]. by destruct (value e); simplify_eq.
Qed.

Lemma cached_refresh c key val hdrs code' k :
  storeOk (cache c) → cached c key = Some val →
  cached {| cache := AddSize (cache (touched c key)) key
                       (AnyCacheObj (refreshed val hdrs code')) (Size val);
            stale := stale c |} k
    = if decide (k = key) then Some (refreshed val hdrs code')
      else cached c k.
Proof.
  intros Hok Hc.
  change (Size val) with (Size (refreshed val hdrs code')).
  by apply (cached_reinsert c key val).
Qed.

Lemma updateHeader_cached c key val hdrs code' :
  cached c key = Some val →
  updateHeader c key hdrs code'
    = (None,
       {| cache := AddSize (cache (touched c key)) key
                     (AnyCacheObj (refreshed val hdrs code')) (Size val);
          stale := stale c |}).
Proof.
  intros Hc%Get_cached. unfold updateHeader, touched. cbn [cache].
  destruct (Get (cache c) key) as [ival l]. simpl in Hc. by subst ival.
Qed.

Lemma storeOk_Freshen keys : ∀ c tick res err c' tick',
  storeOk (cache c) →
  Freshen c tick res keys = Returns (err, (c', tick')) →
  storeOk (cache c')
  ∧ ∀ k, body <$> cached c' k = body <$> cached c k.
Proof.
  induction keys as [|key keys IH]; intros c tick res err c' tick' Hok.
  - by intros [= _ <- _].
  - destruct (cached c key) as [val|] eqn:Hc.
    + destruct ((code val =? Resource.Status res)
                && headersEqual (headers val) (Resource.Header res)) eqn:Hm.
      * apply andb_prop in Hm as [Hcode%Z.eqb_eq Heq].
        rewrite (Freshen_match _ _ _ _ _ _ Hc Hcode Heq). intros Hf.
        apply IH in Hf as [Hok' Hbody].
        -- split; [done|]. intros k. rewrite Hbody.
           rewrite (cached_refresh c key val _ _ k Hok Hc).
           case_decide as Hk; [|done]. subst k. by rewrite Hc.
        -- cbn [cache].
           change (Size val)
             with (Size (refreshed val (Resource.Header res) (code val))).
           by apply storeOk_AddSize, storeOk_Get.
      * rewrite (Freshen_mismatch _ _ _ _ _ _ Hc Hm).
        destruct (stale c) as [m|]; [|done]. intros Hf.
        apply IH in Hf as [Hok' Hbody]; [|by apply storeOk_Get].
        split; [done|]. intros k. rewrite Hbody.
        by rewrite <- (cached_touched c key k).
    + rewrite (Freshen_absent _ _ _ _ _ Hc). intros Hf.
      apply IH in Hf as [Hok' Hbody]; [|by apply storeOk_touched].
      split; [done|]. intros k. by rewrite Hbody, cached_touched.
Qed.

End StoreShape.

(** ** Further properties of the operations *)

Section Further.
Import lru lru_facts lru_order.
Context `{Collaborators}.

Implicit Types (c : lruCache) (key k : string) (keys : list string).
Implicit Types (res : Resource.t) (val : CacheObj).

Lemma reachable_stale_None c : reachable c → stale c = None.
Proof.
  induction 1 as [n c Hnew|c res keys err c' _ IH Hs|c key _ IH|c key _ IH
                 |c tick keys c' tick' _ IH Hi|c tick res keys err c' tick' _ IH Hf].
  - unfold NewLRUCache in Hnew.
    destruct (NewLargeWithEvict n); [|done]. by injection Hnew as <-.
  - by apply (Store_nil_overlay c res keys err c').
  - by rewrite Retrieve_keeps_overlay.
  - by rewrite Header_keeps_overlay.
  - destruct keys as [|key keys]; simpl in Hi.
    + by injection Hi as <- _.
    + by rewrite IH in Hi.
  - by apply (Freshen_nil_overlay keys c tick res err c' tick').
Qed.

Lemma reachable_storeOk_cache c : reachable c → storeOk (cache c).
Proof.
  induction 1 as [n c Hnew|c res keys err c' _ IH Hs|c key _ IH|c key _ IH
                 |c tick keys c' tick' _ IH Hi|c tick res keys err c' tick' _ IH Hf].
  - by apply (storeOk_NewLRUCache n).
  - by apply (storeOk_Store c res keys err c').
  - rewrite Retrieve_touched. by apply storeOk_touched.
  - rewrite Header_touched. by apply storeOk_touched.
  - by rewrite (Invalidate_cache keys c tick c' tick' Hi).
  - by apply (storeOk_Freshen keys c tick res err c' tick').
Qed.

(** X1.  [Store] panics exactly when the Content-Length header parses as
    a length [make] refuses for the read buffer, a negative number or one
    above the allocation limit; nothing else in it panics (the resource is
    a value here and its reader returns). *)
Theorem Store_panics_iff c res keys :
  (∃ msg, Store c res keys = Panics msg)
  ↔ ∃ len,
      strconv.ParseInt (http.Get (Resource.Header res) "Content-Length")
        = Some len
      ∧ (len < 0 ∨ maxAlloc < len).
Proof.
  unfold Store. destruct (strconv.ParseInt _) as [len|].
  - destruct ((len <? 0) || (maxAlloc <? len)) eqn:Hm.
    + split; [|by eauto]. intros _. exists len. split; [done|].
      apply orb_true_iff in Hm as [?%Z.ltb_lt|?%Z.ltb_lt]; auto.
    + apply make_accepts in Hm. split.
      * intros [msg Hp].
        destruct (Resource.Read res (Z.to_nat len)) as [[bs [e|]] res'];
          [done|]. by destruct (negb _).
      * intros (len' & [= <-] & ?). lia.
  - split.
    + intros [msg Hp].
      by destruct (io.ReadAll (Resource.body res)) as [bs [e|]].
    + by intros (len & ? & _).
Qed.

(** X2.  When the stream has more bytes at hand than the Content-Length
    declares, [Store] succeeds and keeps exactly the declared number of
    leading bytes as the body of the entry.  The bytes at hand are in
    memory, so there are no more of them than can be allocated. *)
Theorem Store_keeps_declared_prefix c res keys s rest len :
  Resource.body res = s :: rest →
  Z.of_nat (length (io.avail s)) <= maxAlloc →
  strconv.ParseInt (http.Get (Resource.Header res) "Content-Length")
    = Some len →
  0 <= len < Z.of_nat (length (io.avail s)) →
  Store c res keys
    = Returns (None,
               foldl (storeKey
                        (entryOf res (take (Z.to_nat len) (io.avail s))))
                     c keys).
Proof.
  intros Hbody Hmem Hparse [Hpos Hlt]. apply Store_full.
  unfold readsInFull. rewrite Hparse. split; [lia|].
  unfold Resource.Read, io.Read. rewrite Hbody.
  destruct (Nat.ltb_spec (Z.to_nat len) (length (io.avail s))) as [_|?];
    [|lia].
  split; [done|]. rewrite length_take. lia.
Qed.

(** X3.  [Store] called without keys never changes the cache, whatever the
    outcome of the read. *)
Theorem Store_without_keys c res err c' :
  Store c res [] = Returns (err, c') → c' = c.
Proof. by intros [->|(bytes & _ & _ & ->)]%Store_Returns. Qed.

(** X4.  A [Store] that reads the body in full returns no error and edits
    the overlay at its keys only: each key of the call is removed, every
    other overlay entry is as before. *)
Theorem Store_overlay_exact c res keys bytes :
  readsInFull res bytes →
  ∃ c', Store c res keys = Returns (None, c')
        ∧ ∀ k, staleTime c' k
               = if decide (k ∈ keys) then None else staleTime c k.
Proof.
  intros Hfull. eexists. split; [by apply Store_full|]. intros k.
  case_decide.
  - by apply staleTime_foldl_storeKey.
  - by apply staleTime_foldl_storeKey_other.
Qed.

(** X5.  [Header] and [Retrieve] agree: they leave the same cache behind,
    [Header] succeeds exactly when [Retrieve] does and then returns the
    status and headers of the resource [Retrieve] returns, and either both
    or none report [ErrNotFoundInCache]. *)
Theorem Header_agrees_with_Retrieve c key :
  (Header c key).2 = (Retrieve c key).2
  ∧ (∀ h, (Header c key).1 = Ok h
          ↔ ∃ r, (Retrieve c key).1 = Ok r
                 ∧ Resource.Header r = Header_Header h
                 ∧ Resource.Status r = StatusCode h)
  ∧ ((Header c key).1 = Error ErrNotFoundInCache
     ↔ (Retrieve c key).1 = Error ErrNotFoundInCache).
Proof.
  unfold Header, Retrieve.
  destruct (Get (cache c) key) as [[[o|ty]|] l]; simpl.
  - split; [done|]. split; [|done]. intros h. split.
    + intros [= <-]. eexists. split; [done|].
      destruct (staleTime c key) as [t|]; [|done].
      by destruct (DateAfter _ t).
    + intros (r & [= <-] & Hh & Hs). destruct h as [hh hs]. simpl in *.
      f_equal. destruct (staleTime c key) as [t|];
        [destruct (DateAfter _ t)|]; simpl in *; by subst.
  - split; [done|]. split; [|done]. intros h. split; [done|].
    by intros (r & ? & _).
  - split; [done|]. split; [|done]. intros h. split; [done|].
    by intros (r & ? & _).
Qed.

(** X6.  For a key that is not in the store, [Retrieve], [Header] and
    [updateHeader] all fail with [ErrNotFoundInCache] and leave the cache
    exactly as it was. *)
Theorem missing_key_not_found c key hdrs code' :
  key ∉ lru.key <$> items (cache c) →
  Retrieve c key = (Error ErrNotFoundInCache, c)
  ∧ Header c key = (Error ErrNotFoundInCache, c)
  ∧ updateHeader c key hdrs code' = (Some ErrNotFoundInCache, c).
Proof.
  intros Hf%find_absent. unfold Retrieve, Header, updateHeader, Get.
  rewrite Hf. by destruct c.
Qed.

(** X7.  [Retrieve] changes nothing a later call can observe in the
    content: every key holds the same value afterwards, the overlay is the
    same, and a second [Retrieve] of the key returns the same result. *)
Theorem Retrieve_repeatable c key :
  (∀ k, cached (Retrieve c key).2 k = cached c k)
  ∧ stale (Retrieve c key).2 = stale c
  ∧ (Retrieve (Retrieve c key).2 key).1 = (Retrieve c key).1.
Proof.
  rewrite Retrieve_touched. split; [intros k; apply cached_touched|].
  split; [done|]. unfold Retrieve, touched, staleTime. cbn [cache stale].
  rewrite Get_Get. by destruct (Get (cache c) key) as [[[o|ty]|] l].
Qed.

(** X8.  On a cache whose overlay is allocated, [Invalidate] returns without
    touching the store, makes one clock call per key, records for each of
    its keys the reading of a clock call made for that key, and leaves the
    overlay entries of all other keys as they were. *)
Theorem Invalidate_records keys : ∀ c tick m,
  stale c = Some m →
  ∃ c', Invalidate c tick keys = Returns (c', (tick + length keys)%nat)
        ∧ cache c' = cache c
        ∧ (∀ k, k ∈ keys →
             ∃ i, keys !! i = Some k
                  ∧ staleTime c' k = Some (Clock (tick + i)))
        ∧ (∀ k, k ∉ keys → staleTime c' k = staleTime c k).
Proof.
  induction keys as [|key keys IH]; intros c tick m Hm.
  - exists c. simpl. rewrite Nat.add_0_r. repeat split; try done.
    intros k Hk. by apply elem_of_nil in Hk.
  - cbn [Invalidate]. rewrite Hm.
    set (c1 := {| cache := cache c; stale := Some (<[key:=Clock tick]> m) |}).
    destruct (IH c1 (S tick) _ eq_refl) as (c' & Hi & Hcache & Hrec & Hframe).
    exists c'. split; [rewrite Hi; simpl; do 2 f_equal; lia|].
    split; [done|]. split.
    + intros k Hk. destruct (decide (k ∈ keys)) as [Hin|Hnotin].
      * destruct (Hrec k Hin) as (i & Hi' & Ht). exists (S i).
        split; [done|]. rewrite Ht. do 2 f_equal. lia.
      * apply elem_of_cons in Hk as [->|?]; [|done]. exists 0%nat.
        split; [done|]. rewrite (Hframe key Hnotin).
        unfold staleTime, c1. simpl. rewrite Nat.add_0_r.
        apply lookup_insert_eq.
    + intros k [Hne Hnotin]%not_elem_of_cons. rewrite (Hframe k Hnotin).
      unfold staleTime, c1. simpl. rewrite Hm. by apply lookup_insert_ne.
Qed.

(** X9.  After [Invalidate] of a stored key, on an allocated overlay,
    [Retrieve] returns the stored status, headers and body, and marks the
    resource stale exactly when its effective date is not strictly after
    the clock reading taken by [Invalidate]. *)
Theorem Invalidate_then_Retrieve c tick key m val :
  stale c = Some m →
  cached c key = Some val →
  ∃ c1 r,
    Invalidate c tick [key] = Returns (c1, S tick)
    ∧ Retrieve c1 key = (Ok r, touched c1 key)
    ∧ Resource.Status r = code val
    ∧ Resource.Header r = headers val
    ∧ io.ReadAll (Resource.body r) = (body val, None)
    ∧ Resource.stale r
      = negb (DateAfter
                (NewResourceBytes (code val) (body val) (headers val))
                (Clock tick)).
Proof.
  intros Hm Hc. eexists _, _.
  split; [by apply Invalidate_one|].
  set (c1 := {| cache := cache c; stale := _ |}).
  assert (Hc1 : cached c1 key = Some val) by done.
  rewrite (Retrieve_cached _ _ _ Hc1). split; [reflexivity|].
  unfold staleTime, c1. cbn [stale]. rewrite lookup_insert_eq.
  destruct (DateAfter _ (Clock tick)); cbn;
    by rewrite ReadAll_NewReader.
Qed.

(** X10.  [Freshen] over keys none of which is in the store is a no-op: it
    returns no error and the cache and the clock are as before. *)
Theorem Freshen_absent_keys keys : ∀ c tick res,
  (∀ k, k ∈ keys → k ∉ lru.key <$> items (cache c)) →
  Freshen c tick res keys = Returns (None, (c, tick)).
Proof.
  induction keys as [|key keys IH]; intros c tick res Habs; [done|].
  assert (Hf : find key (items (cache c)) = None).
  { apply find_absent, Habs. by left. }
  rewrite Freshen_absent by (unfold cached; by rewrite Hf).
  rewrite (touched_absent c key Hf). apply IH.
  intros k Hk. apply Habs. by right.
Qed.

(** X11.  On an allocated overlay, [Freshen] with a candidate whose status
    or headers differ from the cached ones returns no error, stamps the key
    with the clock reading, leaves every stored value and every other
    overlay entry as it was, and the original content is still retrieved,
    stale unless its effective date is strictly after that reading. *)
Theorem Freshen_mismatch_invalidates c tick res key m val :
  stale c = Some m →
  cached c key = Some val →
  (code val =? Resource.Status res)
    && headersEqual (headers val) (Resource.Header res) = false →
  ∃ c' r,
    Freshen c tick res [key] = Returns (None, (c', S tick))
    ∧ staleTime c' key = Some (Clock tick)
    ∧ (∀ k, k ≠ key → staleTime c' k = staleTime c k)
    ∧ (∀ k, cached c' k = cached c k)
    ∧ Retrieve c' key = (Ok r, touched c' key)
    ∧ Resource.Status r = code val
    ∧ Resource.Header r = headers val
    ∧ io.ReadAll (Resource.body r) = (body val, None)
    ∧ Resource.stale r
      = negb (DateAfter
                (NewResourceBytes (code val) (body val) (headers val))
                (Clock tick)).
Proof.
  intros Hm Hc Hne. eexists _, _.
  split; [by rewrite (Freshen_mismatch _ _ _ _ _ _ Hc Hne), Hm|].
  set (c' := {| cache := cache (touched c key); stale := _ |}).
  assert (Hall : ∀ k, cached c' k = cached c k).
  { intros k. apply (cached_touched c key k). }
  split; [apply lookup_insert_eq|].
  split.
  { intros k Hk. unfold staleTime, c'. cbn [stale]. rewrite Hm.
    by apply lookup_insert_ne. }
  split; [done|].
  assert (Hc' : cached c' key = Some val) by (by rewrite Hall).
  rewrite (Retrieve_cached _ _ _ Hc'). split; [reflexivity|].
  unfold staleTime, c'. cbn [stale]. rewrite lookup_insert_eq.
  destruct (DateAfter _ (Clock tick)); cbn;
    by rewrite ReadAll_NewReader.
Qed.

(** X12.  Whenever [Freshen] returns, the error it returns is nil: in a
    sequential run the lookup of [updateHeader] repeats the one [Header]
    just made, so its failure branch is never taken. *)
Theorem Freshen_returns_no_error c tick res keys err c' tick' :
  Freshen c tick res keys = Returns (err, (c', tick')) → err = None.
Proof.
  destruct err as [e|]; [|done]. intros Hf.
  by apply Freshen_never_errors in Hf.
Qed.

(** X13.  On every cache a client can get to from [NewLRUCache], the
    overlay map is still nil, so [Invalidate] with at least one key panics
    there too, not only on a fresh cache. *)
Theorem reachable_Invalidate_panics c tick key keys :
  reachable c →
  stale c = None
  ∧ Invalidate c tick (key :: keys) = Panics "assignment to entry in nil map".
Proof.
  intros Hnil%reachable_stale_None. split; [done|].
  by apply Invalidate_nil_overlay.
Qed.

(** X14.  On every cache a client can get to from [NewLRUCache], [Retrieve]
    never marks the resource it returns stale. *)
Theorem reachable_never_stale c key r c' :
  reachable c → Retrieve c key = (Ok r, c') → Resource.stale r = false.
Proof.
  intros Hnil%reachable_stale_None. unfold Retrieve, staleTime.
  rewrite Hnil. destruct (Get (cache c) key) as [[[o|ty]|] l]; [|done|done].
  by intros [= <- _].
Qed.

(** X15.  The shape of the store is an invariant of the operations: from a
    store with distinct keys, resident weight within the capacity and every
    entry a [CacheObj] weighted by the length of its body, each of
    [Store], [Retrieve], [Header], [updateHeader], [Invalidate] and
    [Freshen] leads, when it returns, to a store of that shape. *)
Theorem storeOk_kept c :
  storeOk (cache c) →
  (∀ res keys err c',
     Store c res keys = Returns (err, c') → storeOk (cache c'))
  ∧ (∀ key, storeOk (cache (Retrieve c key).2))
  ∧ (∀ key, storeOk (cache (Header c key).2))
  ∧ (∀ key hdrs code', storeOk (cache (updateHeader c key hdrs code').2))
  ∧ (∀ tick keys c' tick',
       Invalidate c tick keys = Returns (c', tick') → storeOk (cache c'))
  ∧ (∀ tick res keys err c' tick',
       Freshen c tick res keys = Returns (err, (c', tick')) →
       storeOk (cache c')).
Proof.
  intros Hok. repeat apply conj.
  - intros res keys err c'. by apply storeOk_Store.
  - intros key. rewrite Retrieve_touched. by apply storeOk_touched.
  - intros key. rewrite Header_touched. by apply storeOk_touched.
  - intros key hdrs code'. pose proof (storeOk_Get (cache c) key Hok) as Hg.
    unfold updateHeader.
    destruct (Get (cache c) key) as [[[o|ty]|] l]; cbn in *; [|done|done].
    by apply (storeOk_AddSize l key
                {| body := body o; headers := hdrs; code := code' |}).
  - intros tick keys c' tick' Hi.
    by rewrite (Invalidate_cache keys c tick c' tick' Hi).
  - intros tick res keys err c' tick' Hf.
    by apply (storeOk_Freshen keys c tick res err c' tick').
Qed.

(** X16.  On every cache a client can get to from [NewLRUCache], the keys of
    the store are distinct, the resident weight does not exceed the
    capacity given to [NewLRUCache], and every entry is a [CacheObj]
    weighted by the length of its body. *)
Theorem reachable_storeOk c : reachable c → storeOk (cache c).
Proof. apply reachable_storeOk_cache. Qed.

(** X17.  In a store of that shape the defensive type assertions never
    fail: the only error [Header], [Retrieve] and [updateHeader] return is
    [ErrNotFoundInCache], and they return it leaving the cache as it
    was. *)
Theorem errors_are_not_found c key hdrs code' :
  storeOk (cache c) →
  (∀ e c', Header c key = (Error e, c') → e = ErrNotFoundInCache ∧ c' = c)
  ∧ (∀ e c', Retrieve c key = (Error e, c') →
       e = ErrNotFoundInCache ∧ c' = c)
  ∧ (∀ e c', updateHeader c key hdrs code' = (Some e, c') →
       e = ErrNotFoundInCache ∧ c' = c).
Proof.
  intros Hok. destruct (cached c key) as [val|] eqn:Hc.
  - repeat apply conj; intros e c'.
    + by rewrite (Header_cached _ _ _ Hc).
    + by rewrite (Retrieve_cached _ _ _ Hc).
    + by rewrite (updateHeader_cached _ _ _ _ _ Hc).
  - apply (cached_None c key Hok) in Hc.
    unfold Header, Retrieve, updateHeader, Get. rewrite Hc.
    repeat apply conj; intros e c' [= <- <-]; by destruct c.
Qed.

(** X18.  In a store of that shape, [updateHeader] of a stored key succeeds
    without evicting anything: afterwards the key holds the old body with
    the new headers and status, every other key holds what it held,
    the overlay is untouched, and [Header] returns the new headers and
    status. *)
Theorem updateHeader_then_Header c key val hdrs code' :
  storeOk (cache c) →
  cached c key = Some val →
  ∃ c',
    updateHeader c key hdrs code' = (None, c')
    ∧ stale c' = stale c
    ∧ (∀ k, cached c' k
            = if decide (k = key)
              then Some {| body := body val; headers := hdrs; code := code' |}
              else cached c k)
    ∧ (Header c' key).1
      = Ok {| Header_Header := hdrs; StatusCode := code' |}.
Proof.
  intros Hok Hc. eexists. split; [by apply updateHeader_cached|].
  split; [done|].
  assert (Hall : ∀ k,
    cached {| cache := AddSize (cache (touched c key)) key
                         (AnyCacheObj (refreshed val hdrs code')) (Size val);
              stale := stale c |} k
    = if decide (k = key) then Some (refreshed val hdrs code')
      else cached c k).
  { intros k. by apply cached_refresh. }
  split; [exact Hall|].
  specialize (Hall key). rewrite decide_True in Hall by done.
  by rewrite (Header_cached _ _ _ Hall).
Qed.

(** X19.  In a store of that shape, a [Freshen] of a stored key whose status
    and headers match the candidate's evicts nothing: the key then holds
    the old body with the candidate's headers, and every other key holds
    what it held. *)
Theorem Freshen_match_evicts_nothing c tick res key val :
  storeOk (cache c) →
  cached c key = Some val →
  code val = Resource.Status res →
  headersEqual (headers val) (Resource.Header res) = true →
  ∃ c',
    Freshen c tick res [key] = Returns (None, (c', tick))
    ∧ stale c' = stale c
    ∧ ∀ k, cached c' k
           = if decide (k = key)
             then Some {| body := body val;
                          headers := Resource.Header res;
                          code := code val |}
             else cached c k.
Proof.
  intros Hok Hc Hcode Heq. eexists.
  split; [by rewrite (Freshen_match _ _ _ _ _ _ Hc Hcode Heq)|].
  split; [done|]. intros k. by apply cached_refresh.
Qed.

(** X20.  In a store of that shape, whatever the keys and the candidate, a
    [Freshen] that returns has added no key, evicted no key and changed no
    body: every key holds a value with the same body as before, or none as
    before. *)
Theorem Freshen_keeps_bodies c tick res keys err c' tick' :
  storeOk (cache c) →
  Freshen c tick res keys = Returns (err, (c', tick')) →
  ∀ k, body <$> cached c' k = body <$> cached c k.
Proof.
  intros Hok Hf. by apply (storeOk_Freshen keys c tick res err c' tick').
Qed.

End Further.

(** ** What operations on other keys leave of an entry *)

Section OtherKeys.
Import lru lru_facts lru_order.
Context `{Collaborators}.

Implicit Types (c : lruCache) (l : Cache any) (key k : string).
Implicit Types (keys : list string) (res : Resource.t) (val : CacheObj).

















End OtherKeys.

(** ** The claims that depend on what a client can reach *)

Section ReachableClaims.
Import lru lru_facts lru_order.
Context `{Collaborators}.

Implicit Types (c : lruCache) (key k : string) (keys : list string).
Implicit Types (res : Resource.t) (val : CacheObj).



(** C6.  Keys leave the Stale Overlay in [Store] and nowhere else.  A
    [Store] that reads the body in full returns no error and leaves none of
    its keys in the overlay; on every cache a client can get to from
    [NewLRUCache], every [Store] that returns no error leaves none of its
    keys in the overlay.  [Retrieve], [Header] and [updateHeader] leave the
    overlay as it is, and every overlay entry is still there after a
    [Freshen] or an [Invalidate] that returns. *)
Theorem overlay_emptied_only_by_Store :
  (∀ c res keys bytes,
     readsInFull res bytes →
     ∃ c', Store c res keys = Returns (None, c')
           ∧ ∀ k, k ∈ keys → staleTime c' k = None)
  ∧ (∀ c res keys c',
       reachable c → Store c res keys = Returns (None, c') →
       ∀ k, k ∈ keys → staleTime c' k = None)
  ∧ (∀ c key, stale (Retrieve c key).2 = stale c)
  ∧ (∀ c key, stale (Header c key).2 = stale c)
  ∧ (∀ c key hdrs code', stale (updateHeader c key hdrs code').2 = stale c)
  ∧ (∀ c tick res keys err c' tick' k,
       Freshen c tick res keys = Returns (err, (c', tick')) →
       is_Some (staleTime c k) → is_Some (staleTime c' k))
  ∧ (∀ c tick keys c' tick' k,
       Invalidate c tick keys = Returns (c', tick') →
       is_Some (staleTime c k) → is_Some (staleTime c' k)).
Proof.
  repeat apply conj.
  - intros c res keys bytes Hfull.
    destruct (Store_full_clears_overlay c res keys bytes Hfull)
      as (c' & Hs & Hclear & _). by exists c'.
  - intros c res keys c' Hreach Hs k _.
    assert (Hnil : stale c' = None).
    { apply (Store_nil_overlay c res keys None c'); [|done].
      by apply reachable_stale_None. }
    unfold staleTime. by rewrite Hnil.
  - apply Retrieve_keeps_overlay.
  - apply Header_keeps_overlay.
  - apply updateHeader_stale.
  - intros c tick res keys err c' tick' k. apply Freshen_keeps_overlay.
  - intros c tick keys c' tick' k Hi [t Ht].
    unfold staleTime in Ht. destruct (stale c) as [m|] eqn:Hm; [|done].
    destruct (Invalidate_allocated keys c tick m Hm) as (m' & Hi' & Hkeep & _).
    rewrite Hi' in Hi. injection Hi as <- _.
    unfold staleTime. simpl. apply Hkeep. by exists t.
Qed.

End ReachableClaims.

(** ** The theorems at concrete inputs *)

Local Open Scope string_scope.

Lemma Store_short_read_returns_nil_witness :
  strconv.ParseInt (http.Get (Resource.Header shortResource) "Content-Length")
    = Some 5
  ∧ 5 <= maxAlloc
  ∧ (Resource.Read shortResource (Z.to_nat 5)).1 = (bytesOf "abc", None)
  ∧ Z.of_nat (length (bytesOf "abc")) < 5
  ∧ Store staleCache shortResource ["/x"] = Returns (None, staleCache).
Proof.
  assert (Hparse : strconv.ParseInt
                     (http.Get (Resource.Header shortResource) "Content-Length")
                   = Some 5) by (vm_compute; reflexivity).
  assert (Hread : (Resource.Read shortResource (Z.to_nat 5)).1
                  = (bytesOf "abc", None)) by (vm_compute; reflexivity).
  assert (Hlen : Z.of_nat (length (bytesOf "abc")) < 5)
    by (vm_compute; reflexivity).
  assert (Hmax : 5 <= maxAlloc) by (vm_compute; discriminate).
  split; [exact Hparse|]. split; [exact Hmax|].
  split; [exact Hread|]. split; [exact Hlen|].
  exact (Store_short_read_returns_nil staleCache shortResource ["/x"] 5
           (bytesOf "abc") Hparse Hmax Hread Hlen).
Defined.

Lemma Invalidate_new_cache_panics_witness :
  NewLRUCache 64 = Ok freshCache
  ∧ Invalidate freshCache 0 ["/x"] = Panics "assignment to entry in nil map".
Proof.
  assert (Hnew : NewLRUCache 64 = Ok freshCache) by reflexivity.
  split; [exact Hnew|].
  exact (Invalidate_new_cache_panics 64 freshCache 0 "/x" [] Hnew).
Defined.

Lemma Freshen_match_keeps_overlay_entry_witness :
  staleTime staleCache "/x" = Some 100
  ∧ cached staleCache "/x" = Some (entryOf helloResource (bytesOf "hello"))
  ∧ ∃ c1 r,
      Freshen staleCache 1 (candidate 200 (etag "a")) ["/x"]
        = Returns (None, (c1, 1%nat))
      ∧ staleTime c1 "/x" = Some 100
      ∧ Retrieve c1 "/x" = (Ok r, touched c1 "/x")
      ∧ Resource.stale r
        = negb (DateAfter
                  (NewResourceBytes 200 (bytesOf "hello") (etag "a")) 100).
Proof.
  assert (Ht : staleTime staleCache "/x" = Some 100)
    by (vm_compute; reflexivity).
  assert (Hc : cached staleCache "/x"
               = Some (entryOf helloResource (bytesOf "hello")))
    by (vm_compute; reflexivity).
  split; [exact Ht|]. split; [exact Hc|].
  apply (Freshen_match_keeps_overlay_entry staleCache 1
           (candidate 200 (etag "a")) "/x" _ 100 Ht Hc);
    vm_compute; congruence.
Defined.

(** On a cache value with an allocated overlay the entry of ["/x"] outlives
    a matching [Freshen], and the next [Retrieve] still reports the
    resource stale. *)
Lemma Freshen_match_stays_stale :
  ¬ (∀ (collab : Collaborators) (c : lruCache) (tick : nat)
       (res : Resource.t) (key : string) (val : CacheObj) (t : Time)
       (c1 c2 : lruCache) (tick1 : nat) (r : Resource.t),
       staleTime c key = Some t →
       cached c key = Some val →
       code val = Resource.Status res →
       headersEqual (headers val) (Resource.Header res) = true →
       Freshen c tick res [key] = Returns (None, (c1, tick1)) →
       Retrieve c1 key = (Ok r, c2) →
       Resource.stale r = false).
Proof.
  intros Hclaim.
  assert (Ht : staleTime staleCache "/x" = Some 100)
    by (vm_compute; reflexivity).
  assert (Hc : cached staleCache "/x"
               = Some (entryOf helloResource (bytesOf "hello")))
    by (vm_compute; reflexivity).
  assert (Heq : headersEqual (etag "a") (etag "a") = true)
    by (vm_compute; reflexivity).
  assert (Hf : Freshen staleCache 1 (candidate 200 (etag "a")) ["/x"]
               = Returns (None, (freshenedCache, 1%nat)))
    by (vm_compute; reflexivity).
  assert (Hr : Retrieve freshenedCache "/x"
               = (Ok (Resource.MarkStale
                        (NewResourceBytes 200 (bytesOf "hello") (etag "a"))),
                  touched freshenedCache "/x"))
    by (vm_compute; reflexivity).
  specialize (Hclaim exampleCollaborators staleCache 1%nat
                (candidate 200 (etag "a")) "/x" _ 100 _ _ 1%nat _
                Ht Hc eq_refl Heq Hf Hr).
  discriminate Hclaim.
Qed.

Lemma Store_Retrieve_roundtrip_witness :
  readsInFull helloResource (bytesOf "hello")
  ∧ ∃ c' r,
      Store staleCache helloResource ["/x"] = Returns (None, c')
      ∧ Retrieve c' "/x" = (Ok r, touched c' "/x")
      ∧ r = NewResourceBytes 200 (bytesOf "hello") (etag "a")
      ∧ Resource.Status r = 200
      ∧ Resource.Header r = etag "a"
      ∧ io.ReadAll (Resource.body r) = (bytesOf "hello", None)
      ∧ Resource.stale r = false.
Proof.
  assert (Hfull : readsInFull helloResource (bytesOf "hello"))
    by (vm_compute; reflexivity).
  split; [exact Hfull|].
  apply (Store_Retrieve_roundtrip staleCache helloResource ["/x"]
           (bytesOf "hello") "/x" Hfull).
  - apply list_elem_of_here.
  - vm_compute; congruence.
Defined.

Lemma Retrieve_stale_iff_witness :
  cached staleCache "/x" = Some (entryOf helloResource (bytesOf "hello"))
  ∧ ∃ r c',
      Retrieve staleCache "/x" = (Ok r, c')
      ∧ (Resource.stale r = true
         ↔ ∃ t, staleTime staleCache "/x" = Some t
                ∧ DateAfter (NewResourceBytes 200 (bytesOf "hello") (etag "a")) t
                  = false)
      ∧ stale c' = stale staleCache.
Proof.
  assert (Hc : cached staleCache "/x"
               = Some (entryOf helloResource (bytesOf "hello")))
    by (vm_compute; reflexivity).
  split; [exact Hc|].
  exact (Retrieve_stale_iff staleCache "/x" _ Hc).
Defined.

Lemma Store_short_read_keeps_overlay_witness :
  readsShort shortResource 5 (bytesOf "abc")
  ∧ staleTime staleCache "/x" = Some 100
  ∧ ∃ c', Store staleCache shortResource ["/x"] = Returns (None, c')
          ∧ staleTime c' "/x" = Some 100.
Proof.
  assert (Hshort : readsShort shortResource 5 (bytesOf "abc"))
    by (split; [|split; [|split]]; vm_compute; congruence).
  assert (Ht : staleTime staleCache "/x" = Some 100)
    by (vm_compute; reflexivity).
  split; [exact Hshort|]. split; [exact Ht|].
  exact (Store_short_read_keeps_overlay staleCache shortResource ["/x"] 5
           (bytesOf "abc") "/x" 100 Hshort (list_elem_of_here _ _) Ht).
Defined.

Lemma Freshen_match_keeps_body_witness :
  cached storedCache "/x" = Some (entryOf helloResource (bytesOf "hello"))
  ∧ ∃ c',
      Freshen storedCache 0 (candidate 200 (etag "a")) ["/x"]
        = Returns (None, (c', 0%nat))
      ∧ lru.find "/x" (lru.items (cache c'))
        = Some {| lru.key := "/x";
                  lru.value :=
                    AnyCacheObj {| body := bytesOf "hello";
                                   headers := etag "a";
                                   code := 200 |};
                  lru.size := 5 |}.
Proof.
  assert (Hc : cached storedCache "/x"
               = Some (entryOf helloResource (bytesOf "hello")))
    by (vm_compute; reflexivity).
  split; [exact Hc|].
  assert (Heq : headersEqual (etag "a") (etag "a") = true)
    by (vm_compute; reflexivity).
  destruct (Freshen_match_keeps_body storedCache 0 (candidate 200 (etag "a"))
              "/x" [] _ Hc eq_refl Heq) as (c' & _ & Hf & _ & _ & Hfind).
  exists c'. split; [exact Hf|]. apply Hfind. vm_compute; congruence.
Defined.

Lemma Header_ignores_overlay_witness :
  cache storedCache = cache staleCache
  ∧ stale storedCache ≠ stale staleCache
  ∧ (Header storedCache "/x").1 = (Header staleCache "/x").1.
Proof.
  assert (Hsame : cache storedCache = cache staleCache)
    by (vm_compute; reflexivity).
  split; [exact Hsame|]. split; [vm_compute; congruence|].
  exact (proj1 (Header_ignores_overlay storedCache staleCache "/x" Hsame)).
Defined.

Lemma Freshen_mismatch_panics_witness :
  NewLRUCache 64 = Ok freshCache
  ∧ Store freshCache helloResource ["/x"] = Returns (None, freshStoredCache)
  ∧ Freshen freshStoredCache 0 (candidate 304 (etag "a")) ["/x"]
    = Panics "assignment to entry in nil map".
Proof.
  split; [reflexivity|]. split; [vm_compute; reflexivity|].
  apply (Freshen_mismatch_panics freshStoredCache 0 (candidate 304 (etag "a"))
           "/x" []
           {| Header_Header := etag "a"; StatusCode := 200 |}
           (touched freshStoredCache "/x")).
  - vm_compute; reflexivity.
  - vm_compute; reflexivity.
  - vm_compute; reflexivity.
Defined.

Lemma Store_error_leaves_cache_witness :
  ∃ c', Store staleCache brokenResource ["/x"]
          = Returns (Some (ErrorString "connection reset"), c')
        ∧ c' = staleCache.
Proof.
  assert (Hs : Store staleCache brokenResource ["/x"]
               = Returns (Some (ErrorString "connection reset"), staleCache))
    by (vm_compute; reflexivity).
  exists staleCache. split; [exact Hs|].
  exact (Store_error_leaves_cache staleCache brokenResource ["/x"] _ _ Hs).
Defined.

(** ** The further properties at concrete inputs *)

Lemma storeOk_storedCache : storeOk (cache storedCache).
Proof.
  apply (storeOk_Store allocatedCache helloResource ["/x"] None).
  - repeat split; simpl; [apply NoDup_nil_2|lia|done].
  - vm_compute; reflexivity.
Qed.

Lemma reachable_freshStoredCache : reachable freshStoredCache.
Proof.
  apply (reach_Store freshCache helloResource ["/x"] None).
  - by apply (reach_New 64).
  - vm_compute; reflexivity.
Qed.

Lemma Store_keeps_declared_prefix_witness :
  Store freshCache longResource ["/x"]
    = Returns (None,
               storeKey (entryOf longResource (bytesOf "hel")) freshCache "/x").
Proof.
  apply (Store_keeps_declared_prefix freshCache longResource ["/x"]
           {| io.avail := bytesOf "hello"; io.rerr := None |} [] 3).
  - reflexivity.
  - vm_compute; discriminate.
  - vm_compute; reflexivity.
  - vm_compute. split; [discriminate|reflexivity].
Defined.

Lemma Store_without_keys_witness :
  Store staleCache helloResource [] = Returns (None, staleCache)
  ∧ staleCache = staleCache.
Proof.
  assert (Hs : Store staleCache helloResource [] = Returns (None, staleCache))
    by (vm_compute; reflexivity).
  split; [exact Hs|].
  exact (Store_without_keys staleCache helloResource None staleCache Hs).
Defined.

Lemma Store_overlay_exact_witness :
  readsInFull helloResource (bytesOf "hello")
  ∧ ∃ c', Store staleCache helloResource ["/x"] = Returns (None, c')
          ∧ ∀ k, staleTime c' k
                 = if decide (k ∈ ["/x"]) then None else staleTime staleCache k.
Proof.
  assert (Hfull : readsInFull helloResource (bytesOf "hello"))
    by (vm_compute; reflexivity).
  split; [exact Hfull|].
  exact (Store_overlay_exact staleCache helloResource ["/x"]
           (bytesOf "hello") Hfull).
Defined.

Lemma missing_key_not_found_witness :
  Retrieve storedCache "/y" = (Error ErrNotFoundInCache, storedCache)
  ∧ Header storedCache "/y" = (Error ErrNotFoundInCache, storedCache)
  ∧ updateHeader storedCache "/y" (etag "b") 200
    = (Some ErrNotFoundInCache, storedCache).
Proof.
  apply (missing_key_not_found storedCache "/y" (etag "b") 200).
  vm_compute. intros Hin. apply list_elem_of_singleton in Hin. discriminate Hin.
Defined.

Lemma Invalidate_records_witness :
  ∃ c', Invalidate storedCache 0 ["/a"; "/b"] = Returns (c', 2%nat)
        ∧ cache c' = cache storedCache
        ∧ (∀ k, k ∈ ["/a"; "/b"] →
             ∃ i, ["/a"; "/b"] !! i = Some k
                  ∧ staleTime c' k = Some (Clock (0 + i)))
        ∧ (∀ k, k ∉ ["/a"; "/b"] → staleTime c' k = staleTime storedCache k).
Proof.
  exact (Invalidate_records ["/a"; "/b"] storedCache 0 ∅ eq_refl).
Defined.

Lemma Invalidate_then_Retrieve_witness :
  cached storedCache "/x" = Some (entryOf helloResource (bytesOf "hello"))
  ∧ ∃ c1 r,
      Invalidate storedCache 0 ["/x"] = Returns (c1, 1%nat)
      ∧ Retrieve c1 "/x" = (Ok r, touched c1 "/x")
      ∧ Resource.Status r = 200
      ∧ Resource.Header r = etag "a"
      ∧ io.ReadAll (Resource.body r) = (bytesOf "hello", None)
      ∧ Resource.stale r
        = negb (DateAfter
                  (NewResourceBytes 200 (bytesOf "hello") (etag "a")) 100).
Proof.
  assert (Hc : cached storedCache "/x"
               = Some (entryOf helloResource (bytesOf "hello")))
    by (vm_compute; reflexivity).
  split; [exact Hc|].
  exact (Invalidate_then_Retrieve storedCache 0 "/x" ∅ _ eq_refl Hc).
Defined.

Lemma Freshen_absent_keys_witness :
  Freshen storedCache 0 (candidate 200 (etag "a")) ["/a"; "/b"]
    = Returns (None, (storedCache, 0%nat)).
Proof.
  apply (Freshen_absent_keys ["/a"; "/b"] storedCache 0
           (candidate 200 (etag "a"))).
  intros k Hk. vm_compute. intros Hin.
  apply list_elem_of_singleton in Hin. subst k.
  apply elem_of_cons in Hk as [Hk|Hk]; [discriminate Hk|].
  apply list_elem_of_singleton in Hk. discriminate Hk.
Defined.

Lemma Freshen_mismatch_invalidates_witness :
  cached storedCache "/x" = Some (entryOf helloResource (bytesOf "hello"))
  ∧ ∃ c' r,
      Freshen storedCache 0 (candidate 304 (etag "a")) ["/x"]
        = Returns (None, (c', 1%nat))
      ∧ staleTime c' "/x" = Some 100
      ∧ Retrieve c' "/x" = (Ok r, touched c' "/x")
      ∧ io.ReadAll (Resource.body r) = (bytesOf "hello", None).
Proof.
  assert (Hc : cached storedCache "/x"
               = Some (entryOf helloResource (bytesOf "hello")))
    by (vm_compute; reflexivity).
  split; [exact Hc|].
  destruct (Freshen_mismatch_invalidates storedCache 0
              (candidate 304 (etag "a")) "/x" ∅ _ eq_refl Hc eq_refl)
    as (c' & r & Hf & Ht & _ & _ & Hr & _ & _ & Hbody & _).
  exists c', r. split; [exact Hf|]. split; [exact Ht|].
  split; [exact Hr|exact Hbody].
Defined.

Lemma Freshen_returns_no_error_witness :
  Freshen staleCache 1 (candidate 200 (etag "a")) ["/x"]
    = Returns (None, (freshenedCache, 1%nat))
  ∧ (None : error) = None.
Proof.
  assert (Hf : Freshen staleCache 1 (candidate 200 (etag "a")) ["/x"]
               = Returns (None, (freshenedCache, 1%nat)))
    by (vm_compute; reflexivity).
  split; [exact Hf|].
  exact (Freshen_returns_no_error staleCache 1 (candidate 200 (etag "a"))
           ["/x"] None freshenedCache 1 Hf).
Defined.

Lemma reachable_Invalidate_panics_witness :
  stale freshStoredCache = None
  ∧ Invalidate freshStoredCache 0 ["/x"]
    = Panics "assignment to entry in nil map".
Proof.
  exact (reachable_Invalidate_panics freshStoredCache 0 "/x" []
           reachable_freshStoredCache).
Defined.

Lemma reachable_never_stale_witness :
  ∃ r, Retrieve freshStoredCache "/x" = (Ok r, touched freshStoredCache "/x")
       ∧ Resource.stale r = false.
Proof.
  assert (Hr : Retrieve freshStoredCache "/x"
               = (Ok (NewResourceBytes 200 (bytesOf "hello") (etag "a")),
                  touched freshStoredCache "/x"))
    by (vm_compute; reflexivity).
  eexists. split; [exact Hr|].
  exact (reachable_never_stale freshStoredCache "/x" _ _
           reachable_freshStoredCache Hr).
Defined.

Lemma storeOk_kept_witness :
  storeOk (cache (Retrieve storedCache "/x").2).
Proof.
  exact (proj1 (proj2 (storeOk_kept storedCache storeOk_storedCache)) "/x").
Defined.

Lemma reachable_storeOk_witness : storeOk (cache freshStoredCache).
Proof.
  exact (reachable_storeOk freshStoredCache reachable_freshStoredCache).
Defined.

Lemma errors_are_not_found_witness :
  Header storedCache "/y" = (Error ErrNotFoundInCache, storedCache)
  ∧ ErrNotFoundInCache = ErrNotFoundInCache
  ∧ storedCache = storedCache.
Proof.
  assert (Hh : Header storedCache "/y"
               = (Error ErrNotFoundInCache, storedCache))
    by (vm_compute; reflexivity).
  split; [exact Hh|].
  exact (proj1 (errors_are_not_found storedCache "/y" (etag "b") 200
                  storeOk_storedCache) _ _ Hh).
Defined.

Lemma updateHeader_then_Header_witness :
  cached storedCache "/x" = Some (entryOf helloResource (bytesOf "hello"))
  ∧ ∃ c',
      updateHeader storedCache "/x" (etag "b") 200 = (None, c')
      ∧ (Header c' "/x").1
        = Ok {| Header_Header := etag "b"; StatusCode := 200 |}.
Proof.
  assert (Hc : cached storedCache "/x"
               = Some (entryOf helloResource (bytesOf "hello")))
    by (vm_compute; reflexivity).
  split; [exact Hc|].
  destruct (updateHeader_then_Header storedCache "/x" _ (etag "b") 200
              storeOk_storedCache Hc) as (c' & Hu & _ & _ & Hh).
  exists c'. split; [exact Hu|exact Hh].
Defined.

Lemma Freshen_match_evicts_nothing_witness :
  cached storedCache "/x" = Some (entryOf helloResource (bytesOf "hello"))
  ∧ ∃ c',
      Freshen storedCache 0 (candidate 200 (etag "a")) ["/x"]
        = Returns (None, (c', 0%nat))
      ∧ cached c' "/x"
        = Some {| body := bytesOf "hello"; headers := etag "a"; code := 200 |}.
Proof.
  assert (Hc : cached storedCache "/x"
               = Some (entryOf helloResource (bytesOf "hello")))
    by (vm_compute; reflexivity).
  assert (Heq : headersEqual (etag "a") (etag "a") = true)
    by (vm_compute; reflexivity).
  split; [exact Hc|].
  destruct (Freshen_match_evicts_nothing storedCache 0
              (candidate 200 (etag "a")) "/x" _ storeOk_storedCache Hc
              eq_refl Heq) as (c' & Hf & _ & Hall).
  exists c'. split; [exact Hf|]. exact (Hall "/x").
Defined.

Lemma Freshen_keeps_bodies_witness :
  body <$> cached freshenedCache "/x" = body <$> cached staleCache "/x".
Proof.
  assert (Hf : Freshen staleCache 1 (candidate 200 (etag "a")) ["/x"]
               = Returns (None, (freshenedCache, 1%nat)))
    by (vm_compute; reflexivity).
  exact (Freshen_keeps_bodies staleCache 1 (candidate 200 (etag "a")) ["/x"]
           None freshenedCache 1 storeOk_storedCache Hf "/x").
Defined.

(** ** The revised claims at concrete inputs *)




Lemma overlay_emptied_only_by_Store_witness :
  staleTime staleCache "/x" = Some 100
  ∧ ∃ c', Store staleCache helloResource ["/x"] = Returns (None, c')
          ∧ staleTime c' "/x" = None.
Proof.
  assert (Ht : staleTime staleCache "/x" = Some 100)
    by (vm_compute; reflexivity).
  assert (Hfull : readsInFull helloResource (bytesOf "hello"))
    by (vm_compute; reflexivity).
  split; [exact Ht|].
  destruct (proj1 overlay_emptied_only_by_Store staleCache helloResource
              ["/x"] (bytesOf "hello") Hfull) as (c' & Hs & Hclear).
  exists c'. split; [exact Hs|]. apply Hclear. apply list_elem_of_here.
Defined.
